(** * examples/rnn/Model.py: indicator engine, labeler, evaluator, predictor

    A shallow embedding of [Model.py] and the properties its
    specification states.

    Numbers.  The tensors of the source hold IEEE floats, and the
    embedding has two levels.  What depends on the value a float holds, on
    its rounding or on the type of the elements (the cut points of the
    labeler, the values of a moving average) is embedded over binary
    floats, in the module [IEEE].  What depends on shapes, windows,
    counts and divisions by zero only (the indicator series, the
    evaluator) is embedded over the exact rationals [Qc]: there rounding
    is left out, and the one non-finite outcome the code can produce from
    finite inputs, the result of a division by zero (torch's [inf] or
    [nan]), is the extra value [Undef] of [num].  On finite [float64] the
    labeler over floats and the labeler over exact numbers agree
    ([to_categorical_float64_exact]).  The predictor network needs [exp],
    [tanh] and [sqrt], and is embedded over the real numbers [R].

    Errors.  Where torch raises (an index out of range, shapes that do not
    broadcast, a kernel longer than its input), the embedding returns
    [None]. *)

From Stdlib Require Import List Arith ZArith Lia Bool.
From Stdlib Require Import QArith Qcanon.
From Stdlib Require Import Reals Lra.
From Stdlib Require Import SpecFloat.
Import ListNotations.

Close Scope Qc_scope.
Close Scope Q_scope.

(** ** Numbers *)

(** A finite value, or what a division by zero leaves behind. *)
Inductive num : Type :=
| Fin (q : Qc)
| Undef.

Definition Qc_eqb (x y : Qc) : bool :=
  match (x ?= y)%Qc with Eq => true | _ => false end.

(** [x > y] on elements, as in the masks [data > -0.3]. *)
Definition Qc_gtb (x y : Qc) : bool :=
  match (x ?= y)%Qc with Gt => true | _ => false end.

(** True division [a / b] of two finite values. *)
Definition qdiv (a b : Qc) : num :=
  if Qc_eqb b 0%Qc then Undef else Fin (a / b)%Qc.

Definition ndiv (a b : num) : num :=
  match a, b with
  | Fin x, Fin y => qdiv x y
  | _, _ => Undef
  end.

Definition nsub (a b : num) : num :=
  match a, b with
  | Fin x, Fin y => Fin (x - y)%Qc
  | _, _ => Undef
  end.

Definition nmul (a b : num) : num :=
  match a, b with
  | Fin x, Fin y => Fin (x * y)%Qc
  | _, _ => Undef
  end.

Definition Qc_of_nat (n : nat) : Qc := Q2Qc (inject_Z (Z.of_nat n)).
Definition Qc_of_Z (z : Z) : Qc := Q2Qc (inject_Z z).

Definition Qcsum (l : list Qc) : Qc := fold_right Qcplus 0%Qc l.

(** ** Tensors *)

(** One- and two-dimensional tensors.  A matrix carries its number of
    columns, so that a batch of no rows still has a time dimension. *)
Inductive tensor (A : Type) : Type :=
| T1 (v : list A)
| T2 (cols : nat) (rows : list (list A)).
Arguments T1 {A} v.
Arguments T2 {A} cols rows.

(** Three-dimensional tensors, of shape batch x [dim1] x [dim2]. *)
Record tensor3 (A : Type) : Type := T3 {
  dim1 : nat;
  dim2 : nat;
  items : list (list (list A))
}.
Arguments T3 {A} dim1 dim2 items.
Arguments dim1 {A} t.
Arguments dim2 {A} t.
Arguments items {A} t.

Definition shape {A} (t : tensor A) : list nat :=
  match t with
  | T1 v => [length v]
  | T2 c rs => [length rs; c]
  end.

(** Every row of a matrix has the declared number of columns. *)
Definition wf {A} (t : tensor A) : Prop :=
  match t with
  | T1 _ => True
  | T2 c rs => Forall (fun r => length r = c) rs
  end.

Definition tmap {A B} (f : A -> B) (t : tensor A) : tensor B :=
  match t with
  | T1 v => T1 (map f v)
  | T2 c rs => T2 c (map (map f) rs)
  end.

Fixpoint sequence {A} (l : list (option A)) : option (list A) :=
  match l with
  | [] => Some []
  | None :: _ => None
  | Some x :: l' =>
      match sequence l' with
      | Some xs => Some (x :: xs)
      | None => None
      end
  end.

(** *** Python indices and slices *)

(** Where a slice bound [i] falls in a dimension of size [len]: negative
    bounds count from the end, and both kinds are clamped. *)
Definition slice_bound (len : nat) (i : Z) : nat :=
  if (i <? 0)%Z then Z.to_nat (Z.max 0 (Z.of_nat len + i))
  else Z.to_nat (Z.min i (Z.of_nat len)).

(** Where an index [i] falls; out of range raises. *)
Definition index_pos (len : nat) (i : Z) : option nat :=
  if (i <? 0)%Z then
    if (0 <=? Z.of_nat len + i)%Z then Some (Z.to_nat (Z.of_nat len + i)) else None
  else
    if (i <? Z.of_nat len)%Z then Some (Z.to_nat i) else None.

(** [t[:, start:]] *)
Definition slice_cols_from {A} (start : Z) (t : tensor A) : option (tensor A) :=
  match t with
  | T1 _ => None
  | T2 c rs =>
      let s := slice_bound c start in
      Some (T2 (c - s) (map (skipn s) rs))
  end.

(** [t[:, :stop]] *)
Definition slice_cols_to {A} (stop : Z) (t : tensor A) : option (tensor A) :=
  match t with
  | T1 _ => None
  | T2 c rs =>
      let e := slice_bound c stop in
      Some (T2 e (map (firstn e) rs))
  end.

(** [t[:, i]] *)
Definition select_col {A} (i : Z) (t : tensor A) : option (tensor A) :=
  match t with
  | T1 _ => None
  | T2 c rs =>
      match index_pos c i with
      | None => None
      | Some k =>
          match sequence (map (fun r => nth_error r k) rs) with
          | Some v => Some (T1 v)
          | None => None
          end
      end
  end.

(** *** Broadcasting *)

(** The size two dimensions broadcast to, when they do. *)
Definition bdim (a b : nat) : option nat :=
  if a =? b then Some a
  else if a =? 1 then Some b
  else if b =? 1 then Some a
  else None.

Fixpoint zip_with {A B C} (f : A -> B -> C) (l1 : list A) (l2 : list B) : list C :=
  match l1, l2 with
  | x :: l1', y :: l2' => f x y :: zip_with f l1' l2'
  | _, _ => []
  end.

(** Combine two lists along one dimension of sizes that broadcast: equal
    sizes go pointwise, a size of one is stretched. *)
Definition bzip {A B C} (f : A -> B -> C) (l1 : list A) (l2 : list B) : list C :=
  if length l1 =? length l2 then zip_with f l1 l2
  else
    match l1, l2 with
    | [x], _ => map (f x) l2
    | _, [y] => map (fun a => f a y) l1
    | _, _ => []
    end.

(** An elementwise binary operation with broadcasting; a vector against a
    matrix counts as a matrix of one row. *)
Definition bop {A B C} (f : A -> B -> C) (a : tensor A) (b : tensor B)
  : option (tensor C) :=
  match a, b with
  | T1 u, T1 v =>
      match bdim (length u) (length v) with
      | Some _ => Some (T1 (bzip f u v))
      | None => None
      end
  | T2 c1 r1, T2 c2 r2 =>
      match bdim (length r1) (length r2), bdim c1 c2 with
      | Some _, Some c => Some (T2 c (bzip (bzip f) r1 r2))
      | _, _ => None
      end
  | T1 u, T2 c2 r2 =>
      match bdim 1 (length r2), bdim (length u) c2 with
      | Some _, Some c => Some (T2 c (bzip (bzip f) [u] r2))
      | _, _ => None
      end
  | T2 c1 r1, T1 v =>
      match bdim (length r1) 1, bdim c1 (length v) with
      | Some _, Some c => Some (T2 c (bzip (bzip f) r1 [v]))
      | _, _ => None
      end
  end.

(** [torch.sum] of a boolean tensor: how many entries are true. *)
Definition count_true (t : tensor bool) : Z :=
  match t with
  | T1 v => Z.of_nat (length (filter (fun b => b) v))
  | T2 _ rs => Z.of_nat (length (filter (fun b => b) (concat rs)))
  end.

Definition numel {A} (t : tensor A) : Z :=
  match t with
  | T1 v => Z.of_nat (length v)
  | T2 c rs => Z.of_nat (length rs * c)
  end.

(** *** Errors *)

Definition bind {A B} (o : option A) (k : A -> option B) : option B :=
  match o with
  | Some x => k x
  | None => None
  end.

Notation "x <- e ;; k" := (bind e (fun x => k))
  (at level 61, e at next level, right associativity).

(** *** Convolution, sliding blocks, variance, argmax *)

(** Sum of products of a window with the kernel. *)
Definition dot (kernel window : list Qc) : Qc :=
  Qcsum (zip_with Qcmult window kernel).

(** One row of a convolution with [n] outputs: output [i] weighs the
    window that starts at [i]. *)
Definition conv1d_row (kernel : list Qc) (n : nat) (r : list Qc) : list Qc :=
  map (fun i => dot kernel (firstn (length kernel) (skipn i r))) (seq 0 n).

(** [conv1d(input.unsqueeze(1), kernel)[:,0,:]] for a kernel of one input
    and one output channel: stride 1, no padding.  A kernel longer than the
    input raises; an empty kernel is taken to raise as well. *)
Definition conv1d (input : tensor Qc) (kernel : list Qc) : option (tensor Qc) :=
  match input with
  | T1 _ => None
  | T2 c rs =>
      let w := length kernel in
      if (w =? 0) || (c <? w) then None
      else
        let n := c - w + 1 in
        Some (T2 n (map (conv1d_row kernel n) rs))
  end.

(** The sliding blocks of one row, [w] long and [n] of them, laid out as
    [w] lists: entry [k], [l] is the price at time [l + k]. *)
Definition unfold_row (w n : nat) (r : list Qc) : list (list Qc) :=
  map (fun k => firstn n (skipn k r)) (seq 0 w).

(** [unfold(prices.unsqueeze(1).unsqueeze(3), kernel_size=(window,1))] *)
Definition unfold (prices : tensor Qc) (window : Z) : option (tensor3 Qc) :=
  match prices with
  | T1 _ => None
  | T2 c rs =>
      if (window <=? 0)%Z || (Z.of_nat c <? window)%Z then None
      else
        let w := Z.to_nat window in
        let n := c - w + 1 in
        Some (T3 w n (map (unfold_row w n) rs))
  end.

(** [torch.var] of the values of a list: the unbiased estimate. *)
Definition var_unbiased (l : list Qc) : num :=
  let n := length l in
  match qdiv (Qcsum l) (Qc_of_nat n) with
  | Undef => Undef
  | Fin m =>
      qdiv (Qcsum (map (fun x => ((x - m) * (x - m))%Qc) l))
           (Qc_of_Z (Z.max 0 (Z.of_nat n - 1)))
  end.

(** The variance of each of the [n] blocks of one batch element. *)
Definition var_block (n : nat) (b : list (list Qc)) : list num :=
  map (fun l => var_unbiased (map (fun kr => nth l kr 0%Qc) b)) (seq 0 n).

(** [torch.var(x, dim=1)] *)
Definition var_dim1 (x : tensor3 Qc) : tensor num :=
  T2 (dim2 x) (map (var_block (dim2 x)) (items x)).

(** The first index holding the largest value. *)
Fixpoint argmax_from (best : Qc) (besti i : nat) (r : list Qc) : nat :=
  match r with
  | [] => besti
  | x :: r' =>
      if Qc_gtb x best then argmax_from x i (S i) r'
      else argmax_from best besti (S i) r'
  end.

Definition argmax_row (r : list Qc) : Z :=
  match r with
  | [] => 0%Z
  | x :: r' => Z.of_nat (argmax_from x 0 1 r')
  end.

(** [torch.argmax(dist, dim=1)] *)
Definition argmax_dim1 (dist : tensor Qc) : option (tensor Z) :=
  match dist with
  | T1 _ => None
  | T2 c rs => if c =? 0 then None else Some (T1 (map argmax_row rs))
  end.

(** [categories[mask] = v] *)
Definition masked_fill {A} (mask : list bool) (v : A) (l : list A) : list A :=
  zip_with (fun (m : bool) x => if m then v else x) mask l.

(** [.long()]: truncation towards zero. *)
Definition long (q : Qc) : Z := Z.quot (Qnum q) (Zpos (Qden q)).

(** ** IEEE floats

    Where a property depends on how a value is rounded, on the type of the
    elements of a tensor or on what is not a number, the code is embedded
    over binary floating-point numbers: [spec_float] of the Standard
    Library, in the formats of torch's [float32] and [float64], every
    operation rounding to nearest, ties to even. *)

Module IEEE.

Inductive dtype : Type :=
| float32
| float64.

Definition dtype_eqb (a b : dtype) : bool :=
  match a, b with
  | float32, float32 | float64, float64 => true
  | _, _ => false
  end.

(** The bits of the mantissa, the implicit one included. *)
Definition prec (d : dtype) : Z :=
  match d with
  | float32 => 24
  | float64 => 53
  end.

(** The exponent of the infinities. *)
Definition emax (d : dtype) : Z :=
  match d with
  | float32 => 128
  | float64 => 1024
  end.

(** A tensor of floats and the type of its elements. *)
Record ftensor : Type := FTensor {
  dtype_of : dtype;
  values : tensor spec_float
}.

(** The elements are numbers of the format, in their one representation. *)
Definition valid (d : dtype) (x : spec_float) : Prop :=
  valid_binary (prec d) (emax d) x = true.

(** The elements are numbers: neither infinite nor [nan]. *)
Definition finite (x : spec_float) : Prop :=
  match x with
  | S754_zero _ | S754_finite _ _ _ => True
  | S754_infinity _ | S754_nan => False
  end.

(** The rational number a float stands for, [(-1)^s * m * 2^e]. *)
Definition value (x : spec_float) : Q :=
  match x with
  | S754_finite s m e =>
      Qmake (cond_Zopp s (Zpos m) * 2 ^ Z.max 0 e) (Z.to_pos (2 ^ Z.max 0 (- e)))
  | _ => 0%Q
  end.

(** The same number among the exact numbers. *)
Definition to_Qc (x : spec_float) : Qc := Q2Qc (value x).

(** An integer as a float of type [d]. *)
Definition of_int (d : dtype) (z : Z) : spec_float :=
  binary_normalize (prec d) (emax d) z 0 false.

(** A float as a float of type [d]. *)
Definition cast (d : dtype) (x : spec_float) : spec_float :=
  match x with
  | S754_finite s m e => binary_round (prec d) (emax d) s m e
  | _ => x
  end.

(** The Python literal [0.3]: the [float64] nearest to 3/10. *)
Definition literal_0_3 : spec_float :=
  SFdiv (prec float64) (emax float64) (of_int float64 3) (of_int float64 10).

(** [x > y]; false when either is [nan]. *)
Definition gt (x y : spec_float) : bool := SFltb y x.

(** [x <= y]; false when either is [nan]. *)
Definition le (x y : spec_float) : bool := SFleb x y.

(** A Python scalar compared with a tensor of floats is first converted
    to the type of the tensor's elements. *)
Definition lo_threshold (d : dtype) : spec_float := cast d (SFopp literal_0_3).
Definition hi_threshold (d : dtype) : spec_float := cast d literal_0_3.

(** [.long()]: truncation towards zero.  What is not finite has no integer
    value; no caller passes it. *)
Definition long (x : spec_float) : Z :=
  match x with
  | S754_finite s m e => cond_Zopp s (Z.shiftl (Zpos m) e)
  | _ => 0%Z
  end.

(** [categories] is of torch's default type, [float32], and of the one
    dimension [data.shape[0]], which a mask of two dimensions cannot
    index. *)
Definition to_categorical (data : ftensor) : option (tensor Z) :=
  match values data with
  | T2 _ _ => None
  | T1 d =>
      let dt := dtype_of data in
      let categories := repeat (S754_zero false) (length d) in
      let categories :=
        masked_fill (map (fun x => gt x (lo_threshold dt)) d) (of_int float32 1)
                    categories in
      let categories :=
        masked_fill (map (fun x => gt x (hi_threshold dt)) d) (of_int float32 2)
                    categories in
      Some (T1 (map long categories))
  end.

Definition add : spec_float -> spec_float -> spec_float :=
  SFadd (prec float64) (emax float64).
Definition mul : spec_float -> spec_float -> spec_float :=
  SFmul (prec float64) (emax float64).
Definition div : spec_float -> spec_float -> spec_float :=
  SFdiv (prec float64) (emax float64).

(** A sum of [float64], each addition rounded.  The source does not say in
    which order torch adds the products of one window; they are added in
    the order of time, starting from zero. *)
Definition fsum (l : list spec_float) : spec_float :=
  fold_left add l (S754_zero false).

(** Sum of products of a window with the kernel, each product rounded. *)
Definition dot (kernel window : list spec_float) : spec_float :=
  fsum (zip_with mul window kernel).

Definition conv1d_row (kernel : list spec_float) (n : nat) (r : list spec_float)
  : list spec_float :=
  map (fun i => dot kernel (firstn (length kernel) (skipn i r))) (seq 0 n).

(** [conv1d(input.unsqueeze(1), kernel)[:,0,:]] for a [float64] kernel of
    one input and one output channel.  An input of another type than the
    kernel raises, as do a kernel longer than the input and an empty
    kernel. *)
Definition conv1d (input : ftensor) (kernel : list spec_float) : option ftensor :=
  if negb (dtype_eqb (dtype_of input) float64) then None
  else
    match values input with
    | T1 _ => None
    | T2 c rs =>
        let w := length kernel in
        if (w =? 0)%nat || (c <? w)%nat then None
        else
          let n := (c - w + 1)%nat in
          Some (FTensor float64 (T2 n (map (conv1d_row kernel n) rs)))
    end.

(** [torch.ones((1, 1, window), dtype=torch.float64) / window] *)
Definition ma_kernel (w : nat) : list spec_float :=
  map (fun one => div one (of_int float64 (Z.of_nat w)))
      (repeat (of_int float64 1) w).

Definition moving_average (prices : ftensor) (window : Z) : option ftensor :=
  if (window <? 0)%Z then None
  else conv1d prices (ma_kernel (Z.to_nat window)).

End IEEE.

(** ** The labeler

    Over exact numbers the labeler reads a tensor of [float64]: the cut
    points are the rationals that the doubles [-0.3] and [0.3] stand
    for. *)

Definition lo_threshold : Qc := IEEE.to_Qc (IEEE.lo_threshold IEEE.float64).
Definition hi_threshold : Qc := IEEE.to_Qc (IEEE.hi_threshold IEEE.float64).

(** [categories] has the one dimension [data.shape[0]], which a mask of
    two dimensions cannot index. *)
Definition to_categorical (data : tensor Qc) : option (tensor Z) :=
  match data with
  | T2 _ _ => None
  | T1 d =>
      let categories := repeat (Q2Qc 0) (length d) in
      let categories :=
        masked_fill (map (fun x => Qc_gtb x lo_threshold) d) (Q2Qc 1) categories in
      let categories :=
        masked_fill (map (fun x => Qc_gtb x hi_threshold) d) (Q2Qc 2) categories in
      Some (T1 (map long categories))
  end.

(** ** The evaluator *)

Record stats_result : Type := Stats {
  accuracy : num;
  precision : num;
  recall : num
}.

(** True division of two integer scalars. *)
Definition zdiv (a b : Z) : num := qdiv (Qc_of_Z a) (Qc_of_Z b).

Definition stats (dist truth : tensor Qc) : option stats_result :=
  dist_cat <- argmax_dim1 dist ;;
  truth_cat <- to_categorical truth ;;
  hits <- bop Z.eqb dist_cat truth_cat ;;
  let accuracy := zdiv (count_true hits) (numel truth_cat) in
  let dist_pos := tmap (fun c => Z.eqb c 2) dist_cat in
  let truth_pos := tmap (fun c => Z.eqb c 2) truth_cat in
  both <- bop andb dist_pos truth_pos ;;
  let correct := count_true both in
  let precision := zdiv correct (count_true dist_pos) in
  let recall := zdiv correct (count_true truth_pos) in
  Some (Stats accuracy precision recall).

(** ** The indicator engine *)

Definition percent_change (prices : tensor Qc) : option (tensor num) :=
  later <- slice_cols_from 1 prices ;;
  earlier <- slice_cols_to (-1) prices ;;
  ratio <- bop qdiv later earlier ;;
  Some (tmap (fun x => nsub x (Fin 1%Qc)) ratio).

(** [torch.ones((1, 1, window)) / window], in exact arithmetic; the
    kernel of [float64] and the sums as they are rounded are
    [IEEE.ma_kernel] and [IEEE.moving_average]. *)
Definition ma_kernel (w : nat) : list Qc :=
  map (fun one => (one / Qc_of_nat w)%Qc) (repeat 1%Qc w).

Definition moving_average (prices : tensor Qc) (window : Z) : option (tensor Qc) :=
  if (window <? 0)%Z then None
  else conv1d prices (ma_kernel (Z.to_nat window)).

(** The dictionary [data], which holds exactly these four keys. *)
Record indicators : Type := Indicators {
  macd1 : tensor num;
  macd2 : tensor num;
  pct : tensor num;
  var : tensor num
}.

Definition hundred : num := Fin (Q2Qc 100).

(** [t[:, -1]] when only the latest value is asked for. *)
Definition latest_unless {A} (series : bool) (t : tensor A) : option (tensor A) :=
  if series then Some t else select_col (-1) t.

(** [int(window/k)] of an integer [window] is the quotient truncated
    towards zero, [Z.quot window k]. *)
Definition create_indicators (prices : tensor Qc) (window : Z) (series : bool)
  : option indicators :=
  match prices with
  | T1 _ => None
  | T2 time _ =>
      let input_length := (Z.of_nat time - window + 1)%Z in

      ma <- moving_average prices (Z.quot window 2) ;;
      malong <- slice_cols_from (- input_length) ma ;;
      ma <- moving_average prices (Z.quot window 6) ;;
      mashort <- slice_cols_from (- input_length) ma ;;
      spread <- bop Qcminus mashort malong ;;
      macd1 <- bop qdiv spread malong ;;
      macd1 <- latest_unless series macd1 ;;
      let data_macd1 := tmap (fun x => nmul x hundred) macd1 in

      ma <- moving_average prices window ;;
      malong <- slice_cols_from (- input_length) ma ;;
      ma <- moving_average prices (Z.quot window 3) ;;
      mashort <- slice_cols_from (- input_length) ma ;;
      spread <- bop Qcminus mashort malong ;;
      macd2 <- bop qdiv spread malong ;;
      macd2 <- latest_unless series macd2 ;;
      let data_macd2 := tmap (fun x => nmul x hundred) macd2 in

      pct <- percent_change prices ;;
      pct <- slice_cols_from (- input_length) pct ;;
      pct <- latest_unless series pct ;;
      let data_pct := tmap (fun x => nmul x hundred) pct in

      x <- unfold prices window ;;
      let var := var_dim1 x in
      var <- latest_unless series var ;;
      scaled <- bop (fun v m => ndiv v (Fin m)) var malong ;;
      let data_var := tmap (fun x => nmul x hundred) scaled in

      Some (Indicators data_macd1 data_macd2 data_pct data_var)
  end.

(** ** The predictor network

    Over the real numbers.  Weights and biases are functions of their
    indices, so that a layer's declared sizes alone fix its shapes.  In
    training mode batch normalisation also updates its running statistics;
    no output of the same call reads them, and the update is left out. *)

Definition Rsum (l : list R) : R := fold_right Rplus 0%R l.

Record batchnorm : Type := BatchNorm {
  bn_weight : nat -> R;
  bn_bias : nat -> R;
  running_mean : nat -> R;
  running_var : nat -> R;
  eps : R
}.

Inductive layer : Type :=
| Linear (in_features out_features : nat) (weight : nat -> nat -> R) (bias : nat -> R)
| BatchNorm1d (num_features : nat) (bn : batchnorm)
| ReLU.

(** [sum_j w j * x_j] *)
Definition weighted_sum (w : nat -> R) (x : list R) : R :=
  Rsum (map (fun j => (w j * nth j x 0)%R) (seq 0 (length x))).

Definition linear_row (out : nat) (weight : nat -> nat -> R) (bias : nat -> R)
           (x : list R) : list R :=
  map (fun o => (weighted_sum (weight o) x + bias o)%R) (seq 0 out).

Definition column (j : nat) (rows : list (list R)) : list R :=
  map (fun r => nth j r 0%R) rows.

Definition batch_mean (l : list R) : R := (Rsum l / INR (length l))%R.

(** The biased variance that normalises a batch. *)
Definition batch_var (l : list R) : R :=
  let m := batch_mean l in
  (Rsum (map (fun x => (x - m) * (x - m))%R l) / INR (length l))%R.

Definition batch_norm_row (training : bool) (c : nat) (bn : batchnorm)
           (rows : list (list R)) (r : list R) : list R :=
  map (fun j =>
         let mean := if training then batch_mean (column j rows) else running_mean bn j in
         let var := if training then batch_var (column j rows) else running_var bn j in
         ((nth j r 0 - mean) / sqrt (var + eps bn) * bn_weight bn j + bn_bias bn j)%R)
      (seq 0 c).

(** One layer applied to a batch.  Batch normalisation wants a matrix of
    its number of features and, in training mode, refuses a batch of one. *)
Definition apply_layer (training : bool) (l : layer) (x : tensor R) : option (tensor R) :=
  match l, x with
  | Linear i o w b, T2 c rows =>
      if c =? i then Some (T2 o (map (linear_row o w b) rows)) else None
  | Linear i o w b, T1 v =>
      if length v =? i then Some (T1 (linear_row o w b v)) else None
  | BatchNorm1d nf bn, T2 c rows =>
      if negb (c =? nf) then None
      else if training && (length rows =? 1) then None
      else Some (T2 c (map (batch_norm_row training c bn rows) rows))
  | BatchNorm1d _ _, T1 _ => None
  | ReLU, _ => Some (tmap (Rmax 0) x)
  end.

(** [nn.Sequential] *)
Fixpoint sequential (training : bool) (net : list layer) (x : tensor R)
  : option (tensor R) :=
  match net with
  | [] => Some x
  | l :: net' => y <- apply_layer training l x ;; sequential training net' y
  end.

(** The parameters of one linear layer and the normalisation after it. *)
Record layer_params : Type := LayerParams {
  weight : nat -> nat -> R;
  bias : nat -> R;
  norm : batchnorm
}.

Definition create_net (init : nat -> layer_params) (layer_sizes : list nat)
           (omit_last_activation : bool) : list layer :=
  flat_map
    (fun i =>
       [Linear (nth i layer_sizes 0) (nth (i + 1) layer_sizes 0)
               (weight (init i)) (bias (init i));
        BatchNorm1d (nth (i + 1) layer_sizes 0) (norm (init i))]
       ++ (if (i <? length layer_sizes - 2) || negb omit_last_activation
           then [ReLU] else []))
    (seq 0 (length layer_sizes - 1)).

(** [nn.GRUCell]: the rows of [weight_ih] and [weight_hh] hold the reset,
    update and new gates, in that order. *)
Record gru_cell : Type := GRUCell {
  input_size : nat;
  hidden_size : nat;
  weight_ih : nat -> nat -> R;
  weight_hh : nat -> nat -> R;
  bias_ih : nat -> R;
  bias_hh : nat -> R
}.

Definition sigmoid (x : R) : R := (1 / (1 + exp (- x)))%R.

Definition gru_row (g : gru_cell) (x h : list R) : list R :=
  let hs := hidden_size g in
  let gi k := (weighted_sum (weight_ih g k) x + bias_ih g k)%R in
  let gh k := (weighted_sum (weight_hh g k) h + bias_hh g k)%R in
  map (fun j =>
         let r := sigmoid (gi j + gh j) in
         let z := sigmoid (gi (hs + j) + gh (hs + j)) in
         let n := tanh (gi (2 * hs + j) + r * gh (2 * hs + j)) in
         ((1 - z) * n + z * nth j h 0)%R)
      (seq 0 hs).

(** One step of the cell on a batch of inputs and as many hidden states. *)
Definition gru_forward (g : gru_cell) (x hidden : tensor R) : option (tensor R) :=
  match x, hidden with
  | T2 cx xs, T2 ch hs =>
      if (cx =? input_size g) && (ch =? hidden_size g) && (length xs =? length hs)
      then Some (T2 ch (zip_with (gru_row g) xs hs))
      else None
  | _, _ => None
  end.

Record MarketPredictor : Type := Predictor {
  recurrent : bool;
  training : bool;
  finput_layer_sizes : list nat;
  foutput_layer_sizes : list nat;
  finput : list layer;
  foutput : list layer;
  gru : option gru_cell
}.

(** The values the parameters of a network hold. *)
Record parameters : Type := Parameters {
  finput_init : nat -> layer_params;
  foutput_init : nat -> layer_params;
  gru_weight_ih : nat -> nat -> R;
  gru_weight_hh : nat -> nat -> R;
  gru_bias_ih : nat -> R;
  gru_bias_hh : nat -> R
}.

(** [MarketPredictor.__init__]; a new module is in training mode. *)
Definition init (theta : parameters) (input_channels : nat) (recurrent : bool)
  : MarketPredictor :=
  let finput_layer_sizes := [input_channels; 8; 16; 16] in
  let foutput_layer_sizes := [16; 16; 8; 3] in
  Predictor recurrent true finput_layer_sizes foutput_layer_sizes
    (create_net (finput_init theta) finput_layer_sizes false)
    (create_net (foutput_init theta) foutput_layer_sizes true)
    (if recurrent
     then Some (GRUCell (last finput_layer_sizes 0) (last finput_layer_sizes 0)
                  (gru_weight_ih theta) (gru_weight_hh theta)
                  (gru_bias_ih theta) (gru_bias_hh theta))
     else None).

(** [Module.train(mode)]; [eval()] is [train false]. *)
Definition train (m : MarketPredictor) (mode : bool) : MarketPredictor :=
  Predictor (recurrent m) mode (finput_layer_sizes m) (foutput_layer_sizes m)
    (finput m) (foutput m) (gru m).

(** What [forward] is given: a tensor of three dimensions, or of fewer. *)
Inductive input : Type :=
| X3 (x : tensor3 R)
| X2 (x : tensor R).

(** [x.reshape(n, c)] of a three-dimensional tensor, in row-major order. *)
Definition reshape2 (n c : nat) (x : tensor3 R) : option (tensor R) :=
  if length (items x) * dim1 x * dim2 x =? n * c then
    let flat := concat (concat (items x)) in
    Some (T2 c (map (fun k => firstn c (skipn (k * c) flat)) (seq 0 n)))
  else None.

(** [y.reshape(b, t, c)] of a matrix, in row-major order. *)
Definition reshape3 (b t c : nat) (y : tensor R) : option (tensor3 R) :=
  let regroup flat :=
    T3 t c (map (fun bi => map (fun ti => firstn c (skipn ((bi * t + ti) * c) flat))
                               (seq 0 t))
                (seq 0 b)) in
  match y with
  | T1 v => if length v =? b * t * c then Some (regroup v) else None
  | T2 cy rows =>
      if length rows * cy =? b * t * c then Some (regroup (concat rows)) else None
  end.

(** [x[:, t, :]] *)
Definition select_step (t : nat) (x : tensor3 R) : option (tensor R) :=
  if t <? dim1 x
  then Some (T2 (dim2 x) (map (fun item => nth t item []) (items x)))
  else None.

Definition softmax_row (r : list R) : list R :=
  let total := Rsum (map exp r) in
  map (fun x => (exp x / total)%R) r.

(** [softmax(x, dim=1)] *)
Definition softmax_dim1 (x : tensor R) : option (tensor R) :=
  match x with
  | T1 _ => None
  | T2 c rows => Some (T2 c (map softmax_row rows))
  end.

(** [for t in range(timesteps): hidden = self.gru(x_input[:,t,:], hidden)] *)
Fixpoint gru_loop (g : gru_cell) (x_input : tensor3 R) (steps : list nat)
         (hidden : tensor R) : option (tensor R) :=
  match steps with
  | [] => Some hidden
  | t :: steps' =>
      xt <- select_step t x_input ;;
      hidden <- gru_forward g xt hidden ;;
      gru_loop g x_input steps' hidden
  end.

Definition forward (m : MarketPredictor) (x : input) : option (tensor R) :=
  if recurrent m then
    match x, gru m with
    | X3 x, Some g =>
        let batch := length (items x) in
        let timesteps := dim1 x in
        let channels := dim2 x in
        let width := last (finput_layer_sizes m) 0 in
        flat <- reshape2 (batch * timesteps) channels x ;;
        y <- sequential (training m) (finput m) flat ;;
        x_input <- reshape3 batch timesteps width y ;;
        let hidden := T2 width (repeat (repeat 0%R width) batch) in
        hidden <- gru_loop g x_input (seq 0 timesteps) hidden ;;
        x_output <- sequential (training m) (foutput m) hidden ;;
        softmax_dim1 x_output
    | _, _ => None
    end
  else
    match x with
    | X2 (T2 _ _ as x) =>
        x_input <- sequential (training m) (finput m) x ;;
        x_output <- sequential (training m) (foutput m) x_input ;;
        softmax_dim1 x_output
    | _ => None
    end.

(** The batch size of an input. *)
Definition batch_of (x : input) : nat :=
  match x with
  | X3 x => length (items x)
  | X2 (T1 v) => length v
  | X2 (T2 _ rows) => length rows
  end.

(** The inputs [forward] accepts: three dimensions in recurrent mode, two
    otherwise, the last being the input channels; in training mode, where
    batch normalisation refuses a single value per channel, not a batch of
    one. *)
Definition valid_input (m : MarketPredictor) (input_channels : nat) (x : input) : Prop :=
  match x with
  | X3 x =>
      recurrent m = true /\ dim2 x = input_channels /\
      (training m = true -> length (items x) <> 1)
  | X2 (T2 c rows) =>
      recurrent m = false /\ c = input_channels /\
      (training m = true -> length rows <> 1)
  | X2 (T1 _) => False
  end.

(** ** The loss

    [nn.CrossEntropyLoss()] with its defaults, on a matrix of scores and a
    vector of class indices: the mean over the batch of minus the log of
    the softmax of each row at its class.  The classes [loss_fn] passes are
    the categories 0, 1 and 2, which [ignore_index] never matches.  A batch
    that does not match the targets, or a class outside the columns,
    raises; the mean over an empty batch is torch's [nan].

    The target [loss_fn] passes is what [to_categorical] returns, a vector
    of integers.  Torch takes a vector of scores for one sample without a
    batch only against a target of no dimension; against a vector it
    raises, for sizes that differ or, when they agree, for a target of
    class probabilities that is not of floats. *)

Inductive loss : Type :=
| Loss (value : R)
| LossNaN.

Definition log_softmax_at (row : list R) (k : nat) : R :=
  (nth k row 0 - ln (Rsum (map exp row)))%R.

Definition cross_entropy (input : tensor R) (target : tensor Z) : option loss :=
  match input, target with
  | T2 c rows, T1 classes =>
      if negb (length rows =? length classes) then None
      else if negb (forallb (fun k => (0 <=? k)%Z && (k <? Z.of_nat c)%Z) classes)
      then None
      else if length rows =? 0 then Some LossNaN
      else
        Some (Loss (Rsum (zip_with (fun row k => (- log_softmax_at row (Z.to_nat k))%R)
                                   rows classes)
                    / INR (length rows))%R)
  | _, _ => None
  end.

Definition loss_fn (dist : tensor R) (truth : tensor Qc) : option loss :=
  categories <- to_categorical truth ;;
  cross_entropy dist categories.

(** ** The network in evaluation mode, row by row *)

Definition layer_row (l : layer) (r : list R) : list R :=
  match l with
  | Linear _ o w b => linear_row o w b r
  | BatchNorm1d nf bn => batch_norm_row false nf bn [] r
  | ReLU => map (Rmax 0) r
  end.

Definition net_row (net : list layer) (r : list R) : list R :=
  fold_left (fun r l => layer_row l r) net r.

(** The prediction for one sample of a network that is not recurrent. *)
Definition predict_row (m : MarketPredictor) (r : list R) : list R :=
  softmax_row (net_row (foutput m) (net_row (finput m) r)).

(** The hidden state after the steps of one sequence of encoded features. *)
Definition gru_fold (g : gru_cell) (steps : list nat) (item : list (list R))
           (h : list R) : list R :=
  fold_left (fun h t => gru_row g (nth t item []) h) steps h.

(** The prediction for one sequence of a recurrent network: the steps are
    encoded one by one, folded by the cell from a hidden state of zeros,
    and the last hidden state is decoded. *)
Definition predict_sequence (m : MarketPredictor) (item : list (list R)) : list R :=
  match gru m with
  | None => []
  | Some g =>
      let width := last (finput_layer_sizes m) 0 in
      softmax_row
        (net_row (foutput m)
           (gru_fold g (seq 0 (length item)) (map (net_row (finput m)) item)
                     (repeat 0%R width)))
  end.


(** Every sequence has [dim1] steps and every step [dim2] channels. *)
Definition wf3 {A} (x : tensor3 A) : Prop :=
  Forall (fun item => length item = dim1 x /\ Forall (fun r => length r = dim2 x) item)
         (items x).

(** ** Reference definitions

    The measures the specification names, written directly on lists of
    categories, to compare the tensor code against. *)

(** How many positions hold the same category in both lists. *)
Fixpoint agreements (pred label : list Z) : nat :=
  match pred, label with
  | p :: pred', l :: label' =>
      (if Z.eq_dec p l then 1 else 0) + agreements pred' label'
  | _, _ => 0
  end.

(** How many positions hold category 2 in both lists. *)
Fixpoint true_positives (pred label : list Z) : nat :=
  match pred, label with
  | p :: pred', l :: label' =>
      (if Z.eq_dec p 2 then if Z.eq_dec l 2 then 1 else 0 else 0)
      + true_positives pred' label'
  | _, _ => 0
  end.

(** How many entries are category 2. *)
Definition positives (cats : list Z) : nat := count_occ Z.eq_dec cats 2%Z.

(** The arithmetic mean of a list of prices. *)
Definition arith_mean (l : list Qc) : Qc := (Qcsum l / Qc_of_nat (length l))%Qc.

(** The [k] prices of [row] that end at time [stop], exclusive. *)
Definition trailing (k stop : nat) (row : list Qc) : list Qc :=
  firstn k (skipn (stop - k) row).

(** ** Rows of the indicator series

    What [create_indicators] with [series=True] computes from one row of
    prices of length [time], written on lists. *)

(** A moving average of window [k], cut to its last [time - w + 1]
    entries. *)
Definition ma_trail (time w k : nat) (row : list Qc) : list Qc :=
  skipn (w - k) (conv1d_row (ma_kernel k) (time - k + 1) row).

Definition macd_row (time w kshort klong : nat) (row : list Qc) : list num :=
  map (fun x => nmul x hundred)
      (zip_with qdiv
         (zip_with Qcminus (ma_trail time w kshort row) (ma_trail time w klong row))
         (ma_trail time w klong row)).

Definition pct_row (time w : nat) (row : list Qc) : list num :=
  map (fun x => nmul x hundred)
      (skipn (w - 2)
         (map (fun x => nsub x (Fin 1%Qc))
              (zip_with qdiv (skipn 1 row) (firstn (time - 1) row)))).

Definition var_row (time w : nat) (row : list Qc) : list num :=
  map (fun x => nmul x hundred)
      (zip_with (fun v m => ndiv v (Fin m))
         (var_block (time - w + 1) (unfold_row w (time - w + 1) row))
         (ma_trail time w w row)).

(** Entry [i] of row [b] of a matrix. *)
Definition entry {A} (t : tensor A) (b i : nat) : option A :=
  match t with
  | T1 _ => None
  | T2 _ rs => r <- nth_error rs b ;; nth_error r i
  end.

(** ** Example inputs *)

(** Two instruments over seven time steps. *)
Definition rows_two : list (list Qc) :=
  [map Qc_of_Z [1; 2; 3; 4; 5; 6; 7]%Z; map Qc_of_Z [2; 3; 4; 5; 6; 7; 9]%Z].

Definition prices_two : tensor Qc := T2 7 rows_two.

(** Three instruments over seven time steps. *)
Definition prices_three : tensor Qc :=
  T2 7 (rows_two ++ [map Qc_of_Z [5; 5; 4; 4; 3; 3; 2]%Z]).

(** One instrument whose price is zero throughout. *)
Definition rows_zero : list (list Qc) := [repeat 0%Qc 6].

Definition prices_zero : tensor Qc := T2 6 rows_zero.

(** Two predicted distributions, whose largest entries are at 0 and 1. *)
Definition dist_rows_no_up : list (list Qc) :=
  [[Q2Qc (6 # 10); Q2Qc (3 # 10); Q2Qc (1 # 10)];
   [Q2Qc (2 # 10); Q2Qc (7 # 10); Q2Qc (1 # 10)]].

(** Two predicted distributions, whose largest entries are at 2 and 0. *)
Definition dist_rows_up : list (list Qc) :=
  [[Q2Qc (1 # 10); Q2Qc (2 # 10); Q2Qc (7 # 10)];
   [Q2Qc (6 # 10); Q2Qc (3 # 10); Q2Qc (1 # 10)]].

(** Two returns above the upper cut point, and two that are not. *)
Definition truth_up : list Qc := [Q2Qc (1 # 2); Q2Qc (1 # 2)].
Definition truth_no_up : list Qc := [Q2Qc (1 # 10); Q2Qc (-1 # 2)].

(** Parameters as a fresh module has them for batch normalisation (weight
    1, bias 0, running mean 0 and variance 1), with every other weight 1
    and every other bias 0. *)
Definition theta_ones : parameters :=
  let layer := LayerParams (fun _ _ => 1%R) (fun _ => 0%R)
                 (BatchNorm (fun _ => 1%R) (fun _ => 0%R) (fun _ => 0%R) (fun _ => 1%R)
                            (1 / 100000)%R) in
  Parameters (fun _ => layer) (fun _ => layer)
    (fun _ _ => 1%R) (fun _ _ => 1%R) (fun _ => 0%R) (fun _ => 0%R).

(** Two instruments, three time steps, four indicators each. *)
Definition features_two : tensor3 R :=
  T3 3 4 (repeat (repeat [1; 2; 3; 4]%R 3) 2).

(** One instrument over three time steps, in [float64]: 3, 4 and 5. *)
Definition rows_three_steps : list (list spec_float) :=
  [map (IEEE.of_int IEEE.float64) [3; 4; 5]%Z].

(** One instrument over 49 time steps, in [float64]: 48 times 0 and then
    49, whose mean is 1. *)
Definition rows_one_of_49 : list (list spec_float) :=
  [repeat (S754_zero false) 48 ++ [IEEE.of_int IEEE.float64 49]].

(** * Properties *)

(** ** Numbers *)

Lemma Qc_eqb_true (x y : Qc) : Qc_eqb x y = true <-> x = y.
Proof.
  unfold Qc_eqb. rewrite Qceq_alt.
  destruct (x ?= y)%Qc; split; congruence.
Qed.

Lemma Qc_eqb_false (x y : Qc) : Qc_eqb x y = false <-> x <> y.
Proof.
  rewrite <- Qc_eqb_true. destruct (Qc_eqb x y); split; congruence.
Qed.

Lemma Qc_gtb_true (x y : Qc) : Qc_gtb x y = true <-> (y < x)%Qc.
Proof.
  unfold Qc_gtb.
  change (y < x)%Qc with (x > y)%Qc. rewrite Qcgt_alt.
  destruct (x ?= y)%Qc; split; congruence.
Qed.

Lemma Qc_gtb_false (x y : Qc) : Qc_gtb x y = false <-> (x <= y)%Qc.
Proof.
  unfold Qc_gtb. rewrite Qcle_alt.
  destruct (x ?= y)%Qc; split; congruence.
Qed.

Lemma qdiv_zero (a : Qc) : qdiv a 0%Qc = Undef.
Proof. reflexivity. Qed.

Lemma qdiv_nonzero (a b : Qc) : b <> 0%Qc -> qdiv a b = Fin (a / b)%Qc.
Proof.
  intros Hb. unfold qdiv.
  apply Qc_eqb_false in Hb. now rewrite Hb.
Qed.

Lemma qdiv_undef (a b : Qc) : qdiv a b = Undef <-> b = 0%Qc.
Proof.
  unfold qdiv. destruct (Qc_eqb b 0%Qc) eqn:E.
  - apply Qc_eqb_true in E. split; auto.
  - apply Qc_eqb_false in E. split; [discriminate | contradiction].
Qed.

Lemma Qc_of_Z_eq_zero (z : Z) : Qc_of_Z z = 0%Qc <-> z = 0%Z.
Proof.
  unfold Qc_of_Z. change 0%Qc with (Q2Qc 0). rewrite Q2Qc_eq_iff.
  unfold Qeq. simpl. lia.
Qed.

Lemma zdiv_zero (a : Z) : zdiv a 0 = Undef.
Proof. reflexivity. Qed.

Lemma zdiv_nonzero (a b : Z) :
  b <> 0%Z -> zdiv a b = Fin (Qc_of_Z a / Qc_of_Z b)%Qc.
Proof.
  intros Hb. unfold zdiv. apply qdiv_nonzero.
  now rewrite Qc_of_Z_eq_zero.
Qed.

(** ** Lists *)

Lemma zip_with_map {A B C D} (f : B -> C -> D) (g : A -> B) (h : A -> C) (l : list A) :
  zip_with f (map g l) (map h l) = map (fun x => f (g x) (h x)) l.
Proof.
  induction l as [|x l IH]; simpl; [reflexivity | now rewrite IH].
Qed.

Lemma repeat_as_map {A B} (z : B) (l : list A) :
  repeat z (length l) = map (fun _ => z) l.
Proof.
  induction l as [|x l IH]; simpl; [reflexivity | now rewrite IH].
Qed.

Lemma masked_fill_map {A B} (p : A -> bool) (g : A -> B) (v : B) (l : list A) :
  masked_fill (map p l) v (map g l) = map (fun x => if p x then v else g x) l.
Proof. unfold masked_fill. apply zip_with_map. Qed.

Lemma nth_error_zip_with {A B C} (f : A -> B -> C) (l1 : list A) (l2 : list B) (i : nat) :
  nth_error (zip_with f l1 l2) i =
  match nth_error l1 i, nth_error l2 i with
  | Some x, Some y => Some (f x y)
  | _, _ => None
  end.
Proof.
  revert l2 i. induction l1 as [|x l1 IH]; intros [|y l2] [|i]; simpl; auto.
  - now destruct (nth_error l1 i).
Qed.

Lemma length_zip_with {A B C} (f : A -> B -> C) (l1 : list A) (l2 : list B) :
  length (zip_with f l1 l2) = Nat.min (length l1) (length l2).
Proof.
  revert l2. induction l1 as [|x l1 IH]; intros [|y l2]; simpl; auto.
Qed.

Lemma In_window {A} (k i : nat) (l : list A) (x : A) :
  In x (firstn k (skipn i l)) -> In x l.
Proof.
  intros H.
  rewrite <- (firstn_skipn i l). apply in_or_app. right.
  rewrite <- (firstn_skipn k (skipn i l)). apply in_or_app. now left.
Qed.

Lemma Qcsum_zeros (l : list Qc) : Forall (fun x => x = 0%Qc) l -> Qcsum l = 0%Qc.
Proof.
  induction 1 as [|x l Hx _ IH]; [reflexivity|].
  change (Qcsum (x :: l)) with (x + Qcsum l)%Qc.
  rewrite Hx, IH. reflexivity.
Qed.

Lemma zip_with_repeat {A B C} (f : A -> B -> C) (l : list A) (y : B) (n : nat) :
  length l <= n -> zip_with f l (repeat y n) = map (fun x => f x y) l.
Proof.
  revert n. induction l as [|x l IH]; intros [|n] H; cbn in *; try reflexivity; try lia.
  f_equal. apply IH. lia.
Qed.

Ltac bind_inv H :=
  repeat match type of H with
    | bind ?o _ = Some _ =>
        let E := fresh "E" in
        destruct o eqn:E; cbn [bind] in H; [|discriminate H]
    end.

(** ** The labeler *)

(** The category of one value, as the two overriding assignments leave it. *)
Lemma to_categorical_pointwise (data : list Qc) :
  to_categorical (T1 data) =
  Some (T1 (map (fun v => if Qc_gtb v hi_threshold then 2%Z
                          else if Qc_gtb v lo_threshold then 1%Z else 0%Z) data)).
Proof.
  unfold to_categorical.
  rewrite repeat_as_map, !masked_fill_map, map_map.
  do 2 f_equal. apply map_ext. intros v.
  destruct (Qc_gtb v hi_threshold); [reflexivity|].
  destruct (Qc_gtb v lo_threshold); reflexivity.
Qed.

Ltac qc_absurd :=
  exfalso;
  match goal with
  | H1 : (?x < ?y)%Qc, H2 : (?y <= ?x)%Qc |- _ => exact (Qclt_not_le _ _ H1 H2)
  end.

Lemma thresholds_ordered : (lo_threshold < hi_threshold)%Qc.
Proof. reflexivity. Qed.

(** Over exact numbers: a value is sent to category 2 exactly when it is
    above the upper cut point, to category 1 exactly when it is above the
    lower one and not above the upper one, and to category 0 exactly when
    it is not above the lower one. *)
Lemma to_categorical_cut_points (data : list Qc) :
  exists cats,
    to_categorical (T1 data) = Some (T1 cats) /\
    length cats = length data /\
    forall i v, nth_error data i = Some v ->
      exists c, nth_error cats i = Some c /\
        (c = 2%Z <-> (hi_threshold < v)%Qc) /\
        (c = 1%Z <-> (lo_threshold < v)%Qc /\ (v <= hi_threshold)%Qc) /\
        (c = 0%Z <-> (v <= lo_threshold)%Qc).
Proof.
  eexists. split; [apply to_categorical_pointwise|].
  split; [apply length_map|].
  intros i v Hv.
  rewrite nth_error_map, Hv. simpl.
  eexists. split; [reflexivity|].
  pose proof thresholds_ordered as Hlh.
  destruct (Qc_gtb v hi_threshold) eqn:Hhi.
  - apply Qc_gtb_true in Hhi.
    assert (Hlo : (lo_threshold < v)%Qc) by (eapply Qclt_trans; eauto).
    repeat split; try discriminate; auto.
    + intros [_ Hle]. qc_absurd.
    + intros Hle. qc_absurd.
  - apply Qc_gtb_false in Hhi.
    destruct (Qc_gtb v lo_threshold) eqn:Hlo.
    + apply Qc_gtb_true in Hlo.
      repeat split; try discriminate; auto.
      * intros Hlt. qc_absurd.
      * intros Hle. qc_absurd.
    + apply Qc_gtb_false in Hlo.
      repeat split; try discriminate; auto.
      * intros Hlt. qc_absurd.
      * intros [Hlt _]. qc_absurd.
Qed.

(** ** The labeler on floats *)

Lemma SFcompare_antisym (x y : spec_float) :
  SFcompare y x = option_map CompOpp (SFcompare x y).
Proof.
  destruct x as [sx | sx | | sx mx ex], y as [sy | sy | | sy my ey];
    try destruct sx; try destruct sy; try reflexivity;
    cbn [SFcompare option_map];
    pose proof (Pos.compare_cont_antisym mx my Eq) as H; cbn [CompOpp] in H;
    rewrite (Z.compare_antisym ex ey);
    destruct (ex ?= ey)%Z; cbn [CompOpp]; try reflexivity;
    rewrite <- H; try rewrite CompOpp_involutive; reflexivity.
Qed.

Lemma SFcompare_defined (x y : spec_float) :
  x <> S754_nan -> y <> S754_nan -> exists c, SFcompare x y = Some c.
Proof.
  intros Hx Hy.
  destruct x as [sx | sx | | sx mx ex], y as [sy | sy | | sy my ey];
    try congruence; cbn [SFcompare]; eauto.
Qed.

Lemma gt_not_le (v t : spec_float) :
  v <> S754_nan -> t <> S754_nan -> IEEE.gt v t = negb (IEEE.le v t).
Proof.
  intros Hv Ht. unfold IEEE.gt, IEEE.le, SFltb, SFleb.
  rewrite (SFcompare_antisym v t).
  destruct (SFcompare_defined v t Hv Ht) as [c ->].
  destruct c; reflexivity.
Qed.

Lemma spec_float_nan_dec (v : spec_float) : v = S754_nan \/ v <> S754_nan.
Proof. destruct v; auto; right; discriminate. Qed.

Lemma gt_nan (t : spec_float) : IEEE.gt S754_nan t = false.
Proof. now destruct t. Qed.

Lemma le_nan (t : spec_float) : IEEE.le S754_nan t = false.
Proof. reflexivity. Qed.

(** The cut points a tensor is compared with: the literals as doubles for
    [float64], and rounded once more for [float32]. *)
Example thresholds_float64 :
  IEEE.lo_threshold IEEE.float64 = S754_finite true 5404319552844595 (-54) /\
  IEEE.hi_threshold IEEE.float64 = S754_finite false 5404319552844595 (-54).
Proof. split; vm_compute; reflexivity. Qed.

Example thresholds_float32 :
  IEEE.lo_threshold IEEE.float32 = S754_finite true 10066330 (-25) /\
  IEEE.hi_threshold IEEE.float32 = S754_finite false 10066330 (-25).
Proof. split; vm_compute; reflexivity. Qed.

(** The doubles lie within 3/10 in absolute value, the singles beyond. *)
Example thresholds_around :
  (IEEE.value (IEEE.hi_threshold IEEE.float64) < 3 # 10)%Q /\
  (3 # 10 < IEEE.value (IEEE.hi_threshold IEEE.float32))%Q /\
  (IEEE.value (IEEE.lo_threshold IEEE.float32) < -3 # 10)%Q /\
  (-3 # 10 < IEEE.value (IEEE.lo_threshold IEEE.float64))%Q.
Proof. repeat split; vm_compute; reflexivity. Qed.

Lemma lo_threshold_negative (d : IEEE.dtype) :
  exists m e, IEEE.lo_threshold d = S754_finite true m e.
Proof. destruct d; vm_compute; eauto. Qed.

Lemma hi_threshold_positive (d : IEEE.dtype) :
  exists m e, IEEE.hi_threshold d = S754_finite false m e.
Proof. destruct d; vm_compute; eauto. Qed.

Lemma le_lo_not_gt_hi (d : IEEE.dtype) (v : spec_float) :
  IEEE.le v (IEEE.lo_threshold d) = true -> IEEE.gt v (IEEE.hi_threshold d) = false.
Proof.
  destruct (lo_threshold_negative d) as (ml & el & ->).
  destruct (hi_threshold_positive d) as (mh & eh & ->).
  destruct v as [s | s | | s m e]; try destruct s; cbn; congruence.
Qed.

Lemma to_categorical_pointwise_ieee (d : IEEE.dtype) (data : list spec_float) :
  IEEE.to_categorical (IEEE.FTensor d (T1 data)) =
  Some (T1 (map (fun v => if IEEE.gt v (IEEE.hi_threshold d) then 2%Z
                          else if IEEE.gt v (IEEE.lo_threshold d) then 1%Z else 0%Z)
                data)).
Proof.
  unfold IEEE.to_categorical. cbn [IEEE.values IEEE.dtype_of].
  rewrite repeat_as_map, !masked_fill_map, map_map.
  do 2 f_equal. apply map_ext. intros v.
  destruct (IEEE.gt v (IEEE.hi_threshold d)); [reflexivity|].
  destruct (IEEE.gt v (IEEE.lo_threshold d)); reflexivity.
Qed.

(** C2.  For a vector of [float32] or [float64], with -0.3 and 0.3 as
    the type of the vector holds them, [to_categorical] sends a value [v]
    to category 2 exactly when [v > 0.3], to category 1 exactly when
    [-0.3 < v <= 0.3], and to category 0 otherwise: exactly when
    [v <= -0.3] or [v] is not a number. *)
Theorem to_categorical_rounded_thresholds (d : IEEE.dtype) (data : list spec_float) :
  exists cats,
    IEEE.to_categorical (IEEE.FTensor d (T1 data)) = Some (T1 cats) /\
    Forall2 (fun v c =>
               (c = 2%Z <-> IEEE.gt v (IEEE.hi_threshold d) = true) /\
               (c = 1%Z <-> IEEE.gt v (IEEE.lo_threshold d) = true /\
                            IEEE.le v (IEEE.hi_threshold d) = true) /\
               (c = 0%Z <-> IEEE.le v (IEEE.lo_threshold d) = true \/ v = S754_nan))
            data cats.
Proof.
  eexists. split; [apply to_categorical_pointwise_ieee|].
  induction data as [|v data IH]; cbn [map]; constructor; [|exact IH].
  assert (Hlo : IEEE.lo_threshold d <> S754_nan).
  { destruct (lo_threshold_negative d) as (m & e & ->). discriminate. }
  assert (Hhi : IEEE.hi_threshold d <> S754_nan).
  { destruct (hi_threshold_positive d) as (m & e & ->). discriminate. }
  destruct (spec_float_nan_dec v) as [-> | Hv].
  - rewrite !gt_nan. cbn [IEEE.le SFleb SFcompare].
    repeat split; try discriminate; auto; intros H; destruct H; discriminate.
  - pose proof (le_lo_not_gt_hi d v) as Hord.
    rewrite (gt_not_le v (IEEE.hi_threshold d)) in * by assumption.
    rewrite (gt_not_le v (IEEE.lo_threshold d)) by assumption.
    destruct (IEEE.le v (IEEE.lo_threshold d)) eqn:Elo;
      destruct (IEEE.le v (IEEE.hi_threshold d)) eqn:Ehi; cbn [negb] in *;
      try (specialize (Hord eq_refl); discriminate);
      repeat split; try discriminate; auto;
      intros H; destruct H; congruence.
Qed.

(** C2, the statement as it was.  What is not a number is sent to
    category 0, and is not below or at -0.3: every comparison with it is
    false. *)
Lemma to_categorical_nan :
  IEEE.to_categorical (IEEE.FTensor IEEE.float64 (T1 [S754_nan])) = Some (T1 [0%Z]) /\
  IEEE.le S754_nan (IEEE.lo_threshold IEEE.float64) = false.
Proof. split; reflexivity. Qed.

(** The cut points themselves, the floats next above them, and what is
    not finite: -0.3 is category 0 and 0.3 is category 1. *)
Example to_categorical_boundaries_float64 :
  let lo := IEEE.lo_threshold IEEE.float64 in
  let hi := IEEE.hi_threshold IEEE.float64 in
  IEEE.to_categorical
    (IEEE.FTensor IEEE.float64
       (T1 [lo; hi; SFsucc 53 1024 lo; SFsucc 53 1024 hi;
            S754_nan; S754_infinity false; S754_infinity true]))
  = Some (T1 [0; 1; 1; 2; 0; 2; 0]%Z).
Proof. vm_compute. reflexivity. Qed.

Example to_categorical_boundaries_float32 :
  let lo := IEEE.lo_threshold IEEE.float32 in
  let hi := IEEE.hi_threshold IEEE.float32 in
  IEEE.to_categorical
    (IEEE.FTensor IEEE.float32
       (T1 [lo; hi; SFsucc 24 128 lo; SFsucc 24 128 hi;
            S754_nan; S754_infinity false; S754_infinity true]))
  = Some (T1 [0; 1; 1; 2; 0; 2; 0]%Z).
Proof. vm_compute. reflexivity. Qed.

(** *** Floats and the numbers they stand for *)

Lemma digits2_pos_bounds (m : positive) :
  (2 ^ (Zpos (digits2_pos m) - 1) <= Zpos m < 2 ^ Zpos (digits2_pos m))%Z.
Proof.
  induction m as [m IH | m IH |]; cbn [digits2_pos].
  - rewrite Pos2Z.inj_succ.
    replace (Z.succ (Zpos (digits2_pos m)) - 1)%Z with (Z.succ (Zpos (digits2_pos m) - 1))%Z by lia.
    rewrite !Z.pow_succ_r by lia. lia.
  - rewrite Pos2Z.inj_succ.
    replace (Z.succ (Zpos (digits2_pos m)) - 1)%Z with (Z.succ (Zpos (digits2_pos m) - 1))%Z by lia.
    rewrite !Z.pow_succ_r by lia. lia.
  - cbn. lia.
Qed.

(** What the one representation of a number of the format looks like. *)
Lemma valid_finite (d : IEEE.dtype) (s : bool) (m : positive) (e : Z) :
  IEEE.valid d (S754_finite s m e) ->
  (Zpos m < 2 ^ IEEE.prec d)%Z /\
  (emin (IEEE.prec d) (IEEE.emax d) <= e)%Z /\
  ((emin (IEEE.prec d) (IEEE.emax d) < e)%Z -> (2 ^ (IEEE.prec d - 1) <= Zpos m)%Z).
Proof.
  unfold IEEE.valid, valid_binary, bounded, canonical_mantissa, fexp.
  intros H. apply andb_true_iff in H as [H _]. apply Z.eqb_eq in H.
  pose proof (digits2_pos_bounds m) as [Hlo Hhi].
  assert (Hp : (0 < IEEE.prec d)%Z) by (destruct d; reflexivity).
  split; [|split].
  - eapply Z.lt_le_trans; [exact Hhi|]. apply Z.pow_le_mono_r; lia.
  - lia.
  - intros He. replace (IEEE.prec d) with (Zpos (digits2_pos m)) by lia. exact Hlo.
Qed.

Lemma Zcompare_scale (a b c : Z) :
  (0 < c)%Z -> (a * c ?= b * c)%Z = (a ?= b)%Z.
Proof.
  intros Hc. destruct (Z.compare_spec a b) as [E | E | E].
  - subst. apply Z.compare_refl.
  - apply Z.compare_lt_iff. nia.
  - apply Z.compare_gt_iff. nia.
Qed.

Lemma value_compare (s1 s2 : bool) (m1 m2 : positive) (e1 e2 : Z) :
  (IEEE.value (S754_finite s1 m1 e1) ?= IEEE.value (S754_finite s2 m2 e2))%Q
  = (cond_Zopp s1 (Zpos m1) * 2 ^ (e1 - Z.min e1 e2)
     ?= cond_Zopp s2 (Zpos m2) * 2 ^ (e2 - Z.min e1 e2))%Z.
Proof.
  unfold Qcompare, IEEE.value. cbn [Qnum Qden].
  rewrite !Z2Pos.id by (apply Z.pow_pos_nonneg; lia).
  set (z1 := cond_Zopp s1 (Zpos m1)). set (z2 := cond_Zopp s2 (Zpos m2)).
  set (k := (Z.max 0 (- e1) + Z.max 0 (- e2) + Z.min e1 e2)%Z).
  assert (Hk : (0 <= k)%Z) by lia.
  replace (z1 * 2 ^ Z.max 0 e1 * 2 ^ Z.max 0 (- e2))%Z
    with (z1 * 2 ^ (e1 - Z.min e1 e2) * 2 ^ k)%Z.
  2:{ rewrite <- !Z.mul_assoc, <- !Z.pow_add_r by lia. do 2 f_equal. lia. }
  replace (z2 * 2 ^ Z.max 0 e2 * 2 ^ Z.max 0 (- e1))%Z
    with (z2 * 2 ^ (e2 - Z.min e1 e2) * 2 ^ k)%Z.
  2:{ rewrite <- !Z.mul_assoc, <- !Z.pow_add_r by lia. do 2 f_equal. lia. }
  apply Zcompare_scale. apply Z.pow_pos_nonneg; lia.
Qed.

Lemma value_sign (s : bool) (m : positive) (e : Z) :
  (0 ?= IEEE.value (S754_finite s m e))%Q = if s then Gt else Lt.
Proof.
  unfold Qcompare, IEEE.value. cbn [Qnum Qden].
  assert (H : (0 < 2 ^ Z.max 0 e)%Z) by (apply Z.pow_pos_nonneg; lia).
  rewrite Z.mul_1_r. change (0 * _)%Z with 0%Z.
  destruct s; cbn [cond_Zopp].
  - apply Z.compare_gt_iff. nia.
  - apply Z.compare_lt_iff. nia.
Qed.

(** Of two positive numbers of a format, the one of the smaller exponent
    is the smaller. *)
Lemma mantissa_exponent_lt (d : IEEE.dtype) (s1 s2 : bool) (m1 m2 : positive) (e1 e2 : Z) :
  IEEE.valid d (S754_finite s1 m1 e1) -> IEEE.valid d (S754_finite s2 m2 e2) ->
  (e1 < e2)%Z ->
  (Zpos m1 * 2 ^ (e1 - Z.min e1 e2) < Zpos m2 * 2 ^ (e2 - Z.min e1 e2))%Z.
Proof.
  intros H1 H2 He.
  apply valid_finite in H1 as (Hm1 & Hmin1 & _).
  apply valid_finite in H2 as (_ & _ & Hm2).
  specialize (Hm2 ltac:(lia)).
  rewrite Z.min_l by lia. rewrite Z.sub_diag. change (2 ^ 0)%Z with 1%Z.
  assert (Hp : (0 < IEEE.prec d)%Z) by (destruct d; reflexivity).
  assert (H2p : (2 ^ IEEE.prec d = 2 ^ (IEEE.prec d - 1) * 2)%Z).
  { replace (IEEE.prec d) with (Z.succ (IEEE.prec d - 1)) at 1 by lia.
    rewrite Z.pow_succ_r by lia. lia. }
  assert (H2e : (2 <= 2 ^ (e2 - e1))%Z).
  { change 2%Z with (2 ^ 1)%Z at 1. apply Z.pow_le_mono_r; lia. }
  nia.
Qed.

Lemma SFcompare_value (d : IEEE.dtype) (x y : spec_float) :
  IEEE.valid d x -> IEEE.valid d y -> IEEE.finite x -> IEEE.finite y ->
  SFcompare x y = Some (IEEE.value x ?= IEEE.value y)%Q.
Proof.
  intros Vx Vy Fx Fy.
  destruct x as [sx | sx | | sx mx ex], y as [sy | sy | | sy my ey];
    try contradiction; clear Fx Fy.
  - reflexivity.
  - cbn [SFcompare]. change (IEEE.value (S754_zero sx)) with 0%Q.
    rewrite value_sign. now destruct sy.
  - cbn [SFcompare]. change (IEEE.value (S754_zero sy)) with 0%Q.
    rewrite <- Qcompare_antisym, value_sign. now destruct sx.
  - rewrite value_compare. cbn [SFcompare]. f_equal.
    assert (P1 : (0 < 2 ^ (ex - Z.min ex ey))%Z) by (apply Z.pow_pos_nonneg; lia).
    assert (P2 : (0 < 2 ^ (ey - Z.min ex ey))%Z) by (apply Z.pow_pos_nonneg; lia).
    destruct sx, sy; cbn [cond_Zopp].
    + (* both negative *)
      destruct (Z.compare_spec ex ey) as [E | E | E]; symmetry.
      * subst ey. rewrite Z.min_id, Z.sub_diag, !Z.mul_1_r. reflexivity.
      * apply Z.compare_gt_iff.
        pose proof (mantissa_exponent_lt d _ _ _ _ _ _ Vx Vy E). lia.
      * apply Z.compare_lt_iff.
        pose proof (mantissa_exponent_lt d _ _ _ _ _ _ Vy Vx E) as H.
        rewrite Z.min_comm in H. lia.
    + symmetry. apply Z.compare_lt_iff. nia.
    + symmetry. apply Z.compare_gt_iff. nia.
    + destruct (Z.compare_spec ex ey) as [E | E | E]; symmetry.
      * subst ey. rewrite Z.min_id, Z.sub_diag, !Z.mul_1_r. reflexivity.
      * apply Z.compare_lt_iff.
        apply (mantissa_exponent_lt d _ _ _ _ _ _ Vx Vy E).
      * apply Z.compare_gt_iff.
        pose proof (mantissa_exponent_lt d _ _ _ _ _ _ Vy Vx E) as H.
        rewrite Z.min_comm in H. lia.
Qed.

(** On numbers of one format, the comparison of floats is the comparison
    of the numbers they stand for. *)
Lemma gt_to_Qc (d : IEEE.dtype) (x t : spec_float) :
  IEEE.valid d x -> IEEE.valid d t -> IEEE.finite x -> IEEE.finite t ->
  IEEE.gt x t = Qc_gtb (IEEE.to_Qc x) (IEEE.to_Qc t).
Proof.
  intros Vx Vt Fx Ft. unfold IEEE.gt, SFltb, Qc_gtb.
  rewrite (SFcompare_value d t x Vt Vx Ft Fx).
  unfold Qccompare, IEEE.to_Qc. cbn [this Q2Qc].
  rewrite <- Qred_compare, <- (Qcompare_antisym (IEEE.value t)).
  destruct (IEEE.value t ?= IEEE.value x)%Q; reflexivity.
Qed.

(** On a vector of finite [float64], the labeler over floats and the
    labeler over exact numbers give the same categories. *)
Lemma to_categorical_float64_exact (data : list spec_float) :
  Forall (fun x => IEEE.valid IEEE.float64 x /\ IEEE.finite x) data ->
  IEEE.to_categorical (IEEE.FTensor IEEE.float64 (T1 data))
  = to_categorical (T1 (map IEEE.to_Qc data)).
Proof.
  intros Hdata.
  rewrite to_categorical_pointwise_ieee, to_categorical_pointwise, map_map.
  do 2 f_equal. apply map_ext_in. intros v Hv.
  rewrite Forall_forall in Hdata. destruct (Hdata v Hv) as [Vv Fv].
  unfold hi_threshold, lo_threshold.
  rewrite <- !(gt_to_Qc IEEE.float64) by first [assumption | vm_compute; auto].
  reflexivity.
Qed.

(** ** Argmax *)

Lemma argmax_from_max (r pre : list Qc) (best : Qc) (besti : nat) :
  nth_error pre besti = Some best ->
  Forall (fun x => (x <= best)%Qc) pre ->
  exists v,
    nth_error (pre ++ r) (argmax_from best besti (length pre) r) = Some v /\
    Forall (fun x => (x <= v)%Qc) (pre ++ r).
Proof.
  revert pre best besti.
  induction r as [|x r IH]; intros pre best besti Hbest Hpre; cbn [argmax_from].
  - rewrite app_nil_r. eauto.
  - replace (pre ++ x :: r) with ((pre ++ [x]) ++ r) by now rewrite <- app_assoc.
    replace (S (length pre)) with (length (pre ++ [x]))
      by (rewrite length_app; cbn; lia).
    destruct (Qc_gtb x best) eqn:Hx.
    + apply Qc_gtb_true in Hx. apply IH.
      * rewrite nth_error_app2, Nat.sub_diag by lia. reflexivity.
      * apply Forall_app. split.
        -- eapply Forall_impl; [|exact Hpre]. intros y Hy. cbn beta in Hy.
           apply Qclt_le_weak. eapply Qcle_lt_trans; eauto.
        -- constructor; [apply Qcle_refl | constructor].
    + apply Qc_gtb_false in Hx. apply IH.
      * rewrite nth_error_app1; [assumption|].
        apply nth_error_Some. congruence.
      * apply Forall_app. split; [assumption|]. constructor; [assumption | constructor].
Qed.

(** The category [argmax_row] picks holds a largest entry of the row. *)
Lemma argmax_row_max (r : list Qc) :
  r <> [] ->
  exists v,
    nth_error r (Z.to_nat (argmax_row r)) = Some v /\
    Forall (fun x => (x <= v)%Qc) r.
Proof.
  destruct r as [|x r]; [congruence|]. intros _.
  unfold argmax_row. rewrite Nat2Z.id.
  apply (argmax_from_max r [x] x 0); [reflexivity|].
  constructor; [apply Qcle_refl | constructor].
Qed.

(** ** The evaluator *)

Lemma bdim_same (n : nat) : bdim n n = Some n.
Proof. unfold bdim. now rewrite Nat.eqb_refl. Qed.

Lemma bzip_same_length {A B C} (f : A -> B -> C) (l1 : list A) (l2 : list B) :
  length l1 = length l2 -> bzip f l1 l2 = zip_with f l1 l2.
Proof. intros H. unfold bzip. now rewrite H, Nat.eqb_refl. Qed.

Lemma bop_vectors {A B C} (f : A -> B -> C) (u : list A) (v : list B) :
  length u = length v -> bop f (T1 u) (T1 v) = Some (T1 (zip_with f u v)).
Proof.
  intros H. simpl. rewrite H, bdim_same, bzip_same_length; auto.
Qed.

Lemma count_hits (pred label : list Z) :
  length (filter (fun b : bool => b) (zip_with Z.eqb pred label))
  = agreements pred label.
Proof.
  revert label. induction pred as [|p pred IH]; intros [|l label]; simpl; auto.
  rewrite <- IH.
  destruct (Z.eq_dec p l) as [->|Hne].
  - now rewrite Z.eqb_refl.
  - apply Z.eqb_neq in Hne. now rewrite Hne.
Qed.

Lemma count_both (pred label : list Z) :
  length (filter (fun b : bool => b)
            (zip_with andb (map (fun c => Z.eqb c 2) pred)
                           (map (fun c => Z.eqb c 2) label)))
  = true_positives pred label.
Proof.
  revert label. induction pred as [|p pred IH]; intros [|l label]; simpl; auto.
  rewrite <- IH.
  destruct (Z.eq_dec p 2) as [->|Hp]; [|apply Z.eqb_neq in Hp; now rewrite Hp].
  destruct (Z.eq_dec l 2) as [->|Hl]; [reflexivity|].
  apply Z.eqb_neq in Hl. now rewrite Hl.
Qed.

Lemma count_positive (cats : list Z) :
  length (filter (fun b : bool => b) (map (fun c => Z.eqb c 2) cats))
  = positives cats.
Proof.
  unfold positives. induction cats as [|c cats IH]; simpl; auto.
  destruct (Z.eq_dec c 2) as [->|Hc].
  - simpl. now rewrite IH.
  - apply Z.eqb_neq in Hc. rewrite Hc. exact IH.
Qed.

(** What [stats] returns on a batch of predictions and as many truths. *)
Lemma stats_unfold (c : nat) (rows : list (list Qc)) (truth : list Qc) (labels : list Z) :
  0 < c -> length truth = length rows ->
  to_categorical (T1 truth) = Some (T1 labels) ->
  let preds := map argmax_row rows in
  stats (T2 c rows) (T1 truth) =
  Some (Stats (zdiv (Z.of_nat (agreements preds labels)) (Z.of_nat (length rows)))
              (zdiv (Z.of_nat (true_positives preds labels)) (Z.of_nat (positives preds)))
              (zdiv (Z.of_nat (true_positives preds labels)) (Z.of_nat (positives labels)))).
Proof.
  intros Hc Hlen Hcat preds.
  assert (Hlab : length labels = length rows).
  { rewrite to_categorical_pointwise in Hcat. injection Hcat as <-.
    now rewrite length_map. }
  assert (Hpl : length preds = length labels).
  { unfold preds. now rewrite length_map. }
  unfold stats. cbn [argmax_dim1].
  destruct (Nat.eqb_spec c 0) as [->|_]; [lia|].
  cbn [bind]. rewrite Hcat. cbn [bind].
  fold preds. rewrite bop_vectors by exact Hpl. cbn [bind tmap].
  rewrite bop_vectors by (now rewrite !length_map). cbn [bind].
  cbn [count_true numel].
  rewrite count_hits, count_both, !count_positive, Hlab.
  reflexivity.
Qed.

(** C9.  On a batch of predictions and as many truths, the accuracy that
    [stats] returns is the number of batch elements whose argmax category
    equals the category [to_categorical] gives the truth, over the batch
    size; precision and recall are the number of elements that are category
    2 on both sides, over the number predicted as 2 and the number labelled
    2. *)
Theorem stats_measures (c : nat) (rows : list (list Qc)) (truth : list Qc) :
  0 < c -> length truth = length rows ->
  exists labels r,
    to_categorical (T1 truth) = Some (T1 labels) /\
    stats (T2 c rows) (T1 truth) = Some r /\
    let preds := map argmax_row rows in
    accuracy r = zdiv (Z.of_nat (agreements preds labels)) (Z.of_nat (length rows)) /\
    precision r = zdiv (Z.of_nat (true_positives preds labels)) (Z.of_nat (positives preds)) /\
    recall r = zdiv (Z.of_nat (true_positives preds labels)) (Z.of_nat (positives labels)).
Proof.
  intros Hc Hlen.
  pose proof (to_categorical_pointwise truth) as Hcat.
  set (labels := map _ truth) in Hcat.
  exists labels. eexists. split; [exact Hcat|].
  split; [apply stats_unfold; eauto|].
  cbn. auto.
Qed.

(** C6.  When no batch element is predicted as category 2, [stats] still
    returns: nothing guards the division, whose divisor is zero, and the
    precision is the undefined value. *)
Theorem stats_precision_undefined (c : nat) (rows : list (list Qc)) (truth : list Qc) :
  0 < c -> length truth = length rows ->
  Forall (fun row => argmax_row row <> 2%Z) rows ->
  exists r, stats (T2 c rows) (T1 truth) = Some r /\ precision r = Undef.
Proof.
  intros Hc Hlen Hnone.
  pose proof (to_categorical_pointwise truth) as Hcat.
  set (labels := map _ truth) in Hcat.
  eexists. split; [apply stats_unfold; eauto|].
  cbn [precision].
  replace (positives (map argmax_row rows)) with 0; [apply zdiv_zero|].
  symmetry. apply count_occ_not_In.
  rewrite in_map_iff. intros (row & Hrow & Hin).
  rewrite Forall_forall in Hnone. exact (Hnone row Hin Hrow).
Qed.

(** C10.  When no truth is labelled category 2, [stats] still returns:
    the divisor of the recall is zero, and the recall is the undefined
    value. *)
Theorem stats_recall_undefined (c : nat) (rows : list (list Qc)) (truth : list Qc) :
  0 < c -> length truth = length rows ->
  (forall labels, to_categorical (T1 truth) = Some (T1 labels) -> ~ In 2%Z labels) ->
  exists r, stats (T2 c rows) (T1 truth) = Some r /\ recall r = Undef.
Proof.
  intros Hc Hlen Hnone.
  pose proof (to_categorical_pointwise truth) as Hcat.
  set (labels := map _ truth) in Hcat.
  eexists. split; [apply stats_unfold; eauto|].
  cbn [recall].
  replace (positives labels) with 0; [apply zdiv_zero|].
  symmetry. apply count_occ_not_In. now apply Hnone.
Qed.

(** ** Rows and slices *)

Lemma zip_with_rows {A B C D} (f : B -> C -> D) (g : A -> list B) (h : A -> list C)
      (rows : list A) :
  zip_with (bzip f) (map g rows) (map h rows)
  = map (fun r => bzip f (g r) (h r)) rows.
Proof. apply zip_with_map. Qed.

(** Two matrices computed row by row from the same rows, with rows of
    equal lengths, combine row by row and entry by entry. *)
Lemma bop_rowwise {A B C D} (f : B -> C -> D) (n : nat)
      (g : A -> list B) (h : A -> list C) (rows : list A) :
  Forall (fun r => length (g r) = length (h r)) rows ->
  bop f (T2 n (map g rows)) (T2 n (map h rows))
  = Some (T2 n (map (fun r => zip_with f (g r) (h r)) rows)).
Proof.
  intros Hlen. cbn [bop].
  rewrite !length_map, !bdim_same.
  rewrite bzip_same_length by now rewrite !length_map.
  rewrite zip_with_rows. do 2 f_equal.
  apply map_ext_in. intros r Hr.
  rewrite Forall_forall in Hlen.
  apply bzip_same_length. auto.
Qed.

Lemma slice_bound_trailing (n k : nat) :
  k <> 0 -> k <= n -> slice_bound n (- Z.of_nat k) = n - k.
Proof.
  intros Hk Hkn. unfold slice_bound.
  destruct (Z.ltb_spec (- Z.of_nat k) 0); lia.
Qed.

Lemma slice_cols_from_rows {A B} (n k : nat) (g : A -> list B) (rows : list A) :
  k <> 0 -> k <= n ->
  slice_cols_from (- Z.of_nat k) (T2 n (map g rows))
  = Some (T2 k (map (fun r => skipn (n - k) (g r)) rows)).
Proof.
  intros Hk Hkn. cbn [slice_cols_from].
  rewrite slice_bound_trailing, map_map by assumption.
  do 2 f_equal. lia.
Qed.

(** ** Moving averages *)

Lemma ma_kernel_repeat (w : nat) :
  ma_kernel w = repeat (Qcdiv 1%Qc (Qc_of_nat w)) w.
Proof. unfold ma_kernel. now rewrite map_repeat. Qed.

Lemma length_ma_kernel (w : nat) : length (ma_kernel w) = w.
Proof. rewrite ma_kernel_repeat. apply repeat_length. Qed.

Lemma dot_repeat (c : Qc) (window : list Qc) :
  dot (repeat c (length window)) window = (Qcsum window * c)%Qc.
Proof.
  unfold dot. induction window as [|x window IH]; simpl.
  - ring.
  - rewrite IH. ring.
Qed.

(** Weighing a window of [w] prices by [1/w] each gives their mean. *)
Lemma dot_ma_kernel (window : list Qc) :
  dot (ma_kernel (length window)) window = arith_mean window.
Proof.
  rewrite ma_kernel_repeat, dot_repeat. unfold arith_mean, Qcdiv. ring.
Qed.

Lemma length_window {A} (w i : nat) (row : list A) :
  i + w <= length row -> length (firstn w (skipn i row)) = w.
Proof.
  intros H. rewrite length_firstn, length_skipn. lia.
Qed.

Lemma conv1d_row_nth (kernel : list Qc) (n i : nat) (r : list Qc) :
  i < n ->
  nth_error (conv1d_row kernel n r) i
  = Some (dot kernel (firstn (length kernel) (skipn i r))).
Proof.
  intros Hi. unfold conv1d_row.
  rewrite nth_error_map, nth_error_seq.
  destruct (Nat.ltb_spec i n); [reflexivity | lia].
Qed.

Lemma length_conv1d_row (kernel : list Qc) (n : nat) (r : list Qc) :
  length (conv1d_row kernel n r) = n.
Proof. unfold conv1d_row. now rewrite length_map, length_seq. Qed.

(** Entry [i] of a moving-average row is the mean of the [w] prices from
    [i] on. *)
Lemma ma_row_nth (w n i : nat) (row : list Qc) :
  i < n -> i + w <= length row ->
  nth_error (conv1d_row (ma_kernel w) n row) i
  = Some (arith_mean (firstn w (skipn i row))).
Proof.
  intros Hi Hw. rewrite conv1d_row_nth by assumption.
  rewrite length_ma_kernel. f_equal.
  rewrite <- (length_window w i row Hw) at 1.
  apply dot_ma_kernel.
Qed.

Lemma moving_average_rows (time w : nat) (rows : list (list Qc)) :
  1 <= w <= time ->
  moving_average (T2 time rows) (Z.of_nat w)
  = Some (T2 (time - w + 1) (map (conv1d_row (ma_kernel w) (time - w + 1)) rows)).
Proof.
  intros Hw. unfold moving_average.
  destruct (Z.ltb_spec (Z.of_nat w) 0); [lia|].
  rewrite Nat2Z.id. cbn [conv1d]. rewrite length_ma_kernel.
  destruct (Nat.eqb_spec w 0); [lia|].
  destruct (Nat.ltb_spec time w); [lia|].
  reflexivity.
Qed.

(** In exact arithmetic: for prices of shape (batch x T) and a window [w]
    with [1 <= w <= T], [moving_average] returns a tensor of shape
    (batch x T - w + 1) whose entry [i] of each row is the arithmetic mean
    of the [w] consecutive prices of that row starting at index [i]. *)
Theorem moving_average_mean (time w : nat) (rows : list (list Qc)) :
  Forall (fun r => length r = time) rows ->
  1 <= w <= time ->
  exists out,
    moving_average (T2 time rows) (Z.of_nat w) = Some (T2 (time - w + 1) out) /\
    length out = length rows /\
    forall b row, nth_error rows b = Some row ->
      exists orow,
        nth_error out b = Some orow /\
        length orow = time - w + 1 /\
        forall i, i < time - w + 1 ->
          nth_error orow i = Some (arith_mean (firstn w (skipn i row))).
Proof.
  intros Hwf Hw.
  eexists. split; [apply moving_average_rows; assumption|].
  split; [apply length_map|].
  intros b row Hrow.
  eexists. split; [rewrite nth_error_map, Hrow; reflexivity|].
  split; [apply length_conv1d_row|].
  intros i Hi. apply ma_row_nth; [assumption|].
  rewrite Forall_forall in Hwf.
  rewrite (Hwf row) by (eapply nth_error_In; eauto). lia.
Qed.

(** ** Moving averages on floats *)

Lemma ieee_ma_kernel_repeat (w : nat) :
  IEEE.ma_kernel w
  = repeat (IEEE.div (IEEE.of_int IEEE.float64 1) (IEEE.of_int IEEE.float64 (Z.of_nat w))) w.
Proof. unfold IEEE.ma_kernel. now rewrite map_repeat. Qed.

Lemma ieee_length_ma_kernel (w : nat) : length (IEEE.ma_kernel w) = w.
Proof. rewrite ieee_ma_kernel_repeat. apply repeat_length. Qed.

Lemma ieee_conv1d_row_nth (kernel : list spec_float) (n i : nat) (r : list spec_float) :
  i < n ->
  nth_error (IEEE.conv1d_row kernel n r) i
  = Some (IEEE.dot kernel (firstn (length kernel) (skipn i r))).
Proof.
  intros Hi. unfold IEEE.conv1d_row.
  rewrite nth_error_map, nth_error_seq.
  destruct (Nat.ltb_spec i n); [reflexivity | lia].
Qed.

Lemma ieee_length_conv1d_row (kernel : list spec_float) (n : nat) (r : list spec_float) :
  length (IEEE.conv1d_row kernel n r) = n.
Proof. unfold IEEE.conv1d_row. now rewrite length_map, length_seq. Qed.

Lemma ieee_moving_average_rows (time w : nat) (rows : list (list spec_float)) :
  1 <= w <= time ->
  IEEE.moving_average (IEEE.FTensor IEEE.float64 (T2 time rows)) (Z.of_nat w)
  = Some (IEEE.FTensor IEEE.float64
            (T2 (time - w + 1)
                (map (IEEE.conv1d_row (IEEE.ma_kernel w) (time - w + 1)) rows))).
Proof.
  intros Hw. unfold IEEE.moving_average.
  destruct (Z.ltb_spec (Z.of_nat w) 0); [lia|].
  rewrite Nat2Z.id. unfold IEEE.conv1d.
  cbn [IEEE.dtype_of IEEE.values IEEE.dtype_eqb negb].
  rewrite ieee_length_ma_kernel.
  destruct (Nat.eqb_spec w 0); [lia|].
  destruct (Nat.ltb_spec time w); [lia|].
  reflexivity.
Qed.

Lemma moving_average_dtype (t : tensor spec_float) (window : Z) :
  IEEE.moving_average (IEEE.FTensor IEEE.float32 t) window = None.
Proof.
  unfold IEEE.moving_average, IEEE.conv1d. now destruct (window <? 0)%Z.
Qed.

(** C3.  For [float64] prices of shape (batch x T) and a window [w] with
    [1 <= w <= T], [moving_average] returns a [float64] tensor of shape
    (batch x T - w + 1) whose entry [i] of each row is the sum, rounded at
    each step, of the [w] consecutive prices of that row starting at index
    [i], each multiplied by the double nearest to [1/w]. *)
Theorem moving_average_rounded_sums (time w : nat) (rows : list (list spec_float)) :
  Forall (fun r => length r = time) rows ->
  1 <= w <= time ->
  exists out,
    IEEE.moving_average (IEEE.FTensor IEEE.float64 (T2 time rows)) (Z.of_nat w)
    = Some (IEEE.FTensor IEEE.float64 (T2 (time - w + 1) out)) /\
    length out = length rows /\
    forall b row, nth_error rows b = Some row ->
      exists orow,
        nth_error out b = Some orow /\
        length orow = time - w + 1 /\
        forall i, i < time - w + 1 ->
          length (firstn w (skipn i row)) = w /\
          nth_error orow i
          = Some (IEEE.fsum
                    (map (fun p => IEEE.mul p (IEEE.div (IEEE.of_int IEEE.float64 1)
                                                  (IEEE.of_int IEEE.float64 (Z.of_nat w))))
                         (firstn w (skipn i row)))).
Proof.
  intros Hwf Hw.
  eexists. split; [apply ieee_moving_average_rows; assumption|].
  split; [apply length_map|].
  intros b row Hrow.
  eexists. split; [rewrite nth_error_map, Hrow; reflexivity|].
  split; [apply ieee_length_conv1d_row|].
  intros i Hi. split.
  - apply length_window.
    rewrite Forall_forall in Hwf.
    rewrite (Hwf row) by (eapply nth_error_In; eauto). lia.
  - rewrite ieee_conv1d_row_nth by assumption.
    rewrite ieee_length_ma_kernel. f_equal. unfold IEEE.dot.
    rewrite ieee_ma_kernel_repeat. f_equal.
    apply zip_with_repeat. rewrite length_firstn. lia.
Qed.

(** The moving average of window 3 over one instrument and three steps. *)
Lemma moving_average_rounded_sums_three :
  exists out,
    IEEE.moving_average (IEEE.FTensor IEEE.float64 (T2 3 rows_three_steps)) 3
    = Some (IEEE.FTensor IEEE.float64 (T2 1 out)) /\
    length out = 1 /\
    forall b row, nth_error rows_three_steps b = Some row ->
      exists orow,
        nth_error out b = Some orow /\
        length orow = 1 /\
        forall i, i < 1 ->
          length (firstn 3 (skipn i row)) = 3 /\
          nth_error orow i
          = Some (IEEE.fsum
                    (map (fun p => IEEE.mul p (IEEE.div (IEEE.of_int IEEE.float64 1)
                                                  (IEEE.of_int IEEE.float64 3)))
                         (firstn 3 (skipn i row)))).
Proof.
  apply (moving_average_rounded_sums 3 3 rows_three_steps); [repeat constructor | lia].
Defined.

(** C3, the statement as it was.  The prices 0, ..., 0, 49 over 49 steps
    have the mean 1, which is a double; the moving average over the whole
    window is the double below 1, since 49 times the double nearest to
    1/49 is rounded to it. *)
Lemma moving_average_below_mean :
  exists m,
    IEEE.moving_average (IEEE.FTensor IEEE.float64 (T2 49 rows_one_of_49)) 49
    = Some (IEEE.FTensor IEEE.float64 (T2 1 [[m]])) /\
    map (fun row => arith_mean (map IEEE.to_Qc row)) rows_one_of_49 = [1%Qc] /\
    (IEEE.to_Qc m < 1)%Qc.
Proof.
  eexists. split; [vm_compute; reflexivity|].
  split; [|vm_compute; reflexivity].
  cbn [map rows_one_of_49]. f_equal. apply Qc_is_canon. vm_compute. reflexivity.
Qed.

(** The prices 3, 4, 5 have the mean 4; their moving average of window 3
    is the double below 4. *)
Example moving_average_three_steps :
  IEEE.moving_average (IEEE.FTensor IEEE.float64 (T2 3 rows_three_steps)) 3
  = Some (IEEE.FTensor IEEE.float64 (T2 1 [[S754_finite false 9007199254740991 (-51)]])).
Proof. vm_compute. reflexivity. Qed.

(** Where the moving average over floats returns, so does the one over
    exact numbers on prices of the same shape, and with the same shape. *)
Lemma moving_average_same_shape (time : nat) (rows : list (list spec_float))
      (rows' : list (list Qc)) (window : Z) :
  length rows = length rows' ->
  option_map (fun t => shape (IEEE.values t))
             (IEEE.moving_average (IEEE.FTensor IEEE.float64 (T2 time rows)) window)
  = option_map shape (moving_average (T2 time rows') window).
Proof.
  intros Hlen. unfold IEEE.moving_average, moving_average.
  destruct (window <? 0)%Z; [reflexivity|].
  unfold IEEE.conv1d, conv1d.
  cbn [IEEE.dtype_of IEEE.values IEEE.dtype_eqb negb].
  rewrite ieee_length_ma_kernel, length_ma_kernel.
  destruct ((Z.to_nat window =? 0) || (time <? Z.to_nat window)); [reflexivity|].
  cbn [option_map IEEE.values shape]. now rewrite !length_map, Hlen.
Qed.

(** ** Percent change *)

Lemma percent_change_rows (time : nat) (rows : list (list Qc)) :
  Forall (fun r => length r = time) rows ->
  1 <= time ->
  percent_change (T2 time rows)
  = Some (T2 (time - 1)
            (map (fun r => map (fun x => nsub x (Fin 1%Qc))
                               (zip_with qdiv (skipn 1 r) (firstn (time - 1) r)))
                 rows)).
Proof.
  intros Hwf Ht. unfold percent_change. cbn [slice_cols_from slice_cols_to bind].
  assert (E1 : slice_bound time 1 = 1).
  { unfold slice_bound. cbn. lia. }
  assert (E2 : slice_bound time (-1) = time - 1).
  { unfold slice_bound. cbn. lia. }
  rewrite E1, E2.
  rewrite bop_rowwise.
  - cbn [bind tmap]. now rewrite map_map.
  - eapply Forall_impl; [|exact Hwf].
    intros r Hr. cbn beta in *.
    rewrite length_skipn, length_firstn. lia.
Qed.

Lemma percent_change_row_nth (time t : nat) (row : list Qc) (p0 p1 : Qc) :
  length row = time ->
  nth_error row t = Some p0 -> nth_error row (t + 1) = Some p1 ->
  nth_error (map (fun x => nsub x (Fin 1%Qc))
                 (zip_with qdiv (skipn 1 row) (firstn (time - 1) row))) t
  = Some (nsub (qdiv p1 p0) (Fin 1%Qc)).
Proof.
  intros Hlen H0 H1.
  assert (Ht : t + 1 < time).
  { rewrite <- Hlen. apply nth_error_Some. congruence. }
  rewrite nth_error_map, nth_error_zip_with, nth_error_skipn.
  rewrite nth_error_firstn.
  destruct (Nat.ltb_spec t (time - 1)); [|lia].
  replace (1 + t) with (t + 1) by lia.
  now rewrite H0, H1.
Qed.

(** C4.  For prices of shape (batch x T) with [T >= 2], [percent_change]
    returns a tensor of shape (batch x T - 1) whose entry [t] of each row
    is [p[t+1] / p[t] - 1]: that number when [p[t]] is not zero, and the
    undefined value of a division by zero when it is. *)
Theorem percent_change_ratio (time : nat) (rows : list (list Qc)) :
  Forall (fun r => length r = time) rows ->
  2 <= time ->
  exists out,
    percent_change (T2 time rows) = Some (T2 (time - 1) out) /\
    length out = length rows /\
    forall b row, nth_error rows b = Some row ->
      exists orow,
        nth_error out b = Some orow /\
        length orow = time - 1 /\
        forall t p0 p1,
          nth_error row t = Some p0 -> nth_error row (t + 1) = Some p1 ->
          nth_error orow t = Some (nsub (qdiv p1 p0) (Fin 1%Qc)) /\
          (p0 <> 0%Qc -> nth_error orow t = Some (Fin (p1 / p0 - 1)%Qc)) /\
          (p0 = 0%Qc -> nth_error orow t = Some Undef).
Proof.
  intros Hwf Ht.
  eexists. split; [apply percent_change_rows; [assumption | lia]|].
  split; [apply length_map|].
  intros b row Hrow.
  assert (Hlen : length row = time).
  { rewrite Forall_forall in Hwf. apply Hwf. eapply nth_error_In; eauto. }
  eexists. split; [rewrite nth_error_map, Hrow; reflexivity|].
  split.
  { rewrite length_map, length_zip_with, length_skipn, length_firstn. lia. }
  intros t p0 p1 H0 H1.
  rewrite (percent_change_row_nth time t row p0 p1) by assumption.
  split; [reflexivity|]. split.
  - intros Hp. now rewrite qdiv_nonzero.
  - intros ->. reflexivity.
Qed.

(** ** The indicator series *)

Lemma quot_of_nat (w k : nat) :
  k <> 0 -> Z.quot (Z.of_nat w) (Z.of_nat k) = Z.of_nat (w / k).
Proof.
  intros Hk. rewrite Z.quot_div_nonneg by lia.
  symmetry. apply Nat2Z.inj_div.
Qed.

Lemma input_length_of_nat (time w : nat) :
  w <= time -> (Z.of_nat time - Z.of_nat w + 1)%Z = Z.of_nat (time - w + 1).
Proof. lia. Qed.

(** A moving average of window [k <= w], cut to the common length. *)
Lemma moving_average_sliced (time w k : nat) (rows : list (list Qc)) :
  1 <= k -> k <= w -> w <= time ->
  slice_cols_from (- Z.of_nat (time - w + 1))
    (T2 (time - k + 1) (map (conv1d_row (ma_kernel k) (time - k + 1)) rows))
  = Some (T2 (time - w + 1) (map (ma_trail time w k) rows)).
Proof.
  intros Hk Hkw Hw.
  rewrite slice_cols_from_rows by lia.
  do 2 f_equal. apply map_ext. intros row. unfold ma_trail.
  f_equal. lia.
Qed.

Lemma length_ma_trail (time w k : nat) (row : list Qc) :
  1 <= k -> k <= w -> w <= time ->
  length (ma_trail time w k row) = time - w + 1.
Proof.
  intros Hk Hkw Hw. unfold ma_trail.
  rewrite length_skipn, length_conv1d_row. lia.
Qed.

(** Entry [i] of a cut moving average is the mean of the [k] prices that
    end where the window of length [w] starting at [i] ends. *)
Lemma ma_trail_nth (time w k i : nat) (row : list Qc) :
  1 <= k -> k <= w -> w <= time -> length row = time -> i < time - w + 1 ->
  nth_error (ma_trail time w k row) i
  = Some (arith_mean (trailing k (i + w) row)).
Proof.
  intros Hk Hkw Hw Hlen Hi. unfold ma_trail, trailing.
  rewrite nth_error_skipn, ma_row_nth by lia.
  replace (w - k + i) with (i + w - k) by lia. reflexivity.
Qed.

(** The spread of two cut moving averages, and its ratio to the long
    one, as whole tensors. *)
Lemma spread_rows (time w ks kl : nat) (rows : list (list Qc)) :
  1 <= ks -> ks <= w -> 1 <= kl -> kl <= w -> w <= time ->
  bop Qcminus (T2 (time - w + 1) (map (ma_trail time w ks) rows))
              (T2 (time - w + 1) (map (ma_trail time w kl) rows))
  = Some (T2 (time - w + 1)
            (map (fun r => zip_with Qcminus (ma_trail time w ks r) (ma_trail time w kl r))
                 rows)).
Proof.
  intros Hs Hsw Hl Hlw Hw. apply bop_rowwise.
  apply Forall_forall. intros r _. now rewrite !length_ma_trail.
Qed.

Lemma ratio_rows (time w ks kl : nat) (rows : list (list Qc)) :
  1 <= ks -> ks <= w -> 1 <= kl -> kl <= w -> w <= time ->
  bop qdiv
      (T2 (time - w + 1)
          (map (fun r => zip_with Qcminus (ma_trail time w ks r) (ma_trail time w kl r))
               rows))
      (T2 (time - w + 1) (map (ma_trail time w kl) rows))
  = Some (T2 (time - w + 1)
            (map (fun r => zip_with qdiv
                             (zip_with Qcminus (ma_trail time w ks r) (ma_trail time w kl r))
                             (ma_trail time w kl r))
                 rows)).
Proof.
  intros Hs Hsw Hl Hlw Hw.
  apply (bop_rowwise qdiv _
           (fun r => zip_with Qcminus (ma_trail time w ks r) (ma_trail time w kl r))).
  apply Forall_forall. intros r _.
  rewrite length_zip_with, !length_ma_trail by assumption. lia.
Qed.

Lemma macd_row_nth (time w ks kl i : nat) (row : list Qc) :
  1 <= ks -> ks <= w -> 1 <= kl -> kl <= w -> w <= time ->
  length row = time -> i < time - w + 1 ->
  nth_error (macd_row time w ks kl row) i
  = Some (nmul (qdiv (arith_mean (trailing ks (i + w) row)
                      - arith_mean (trailing kl (i + w) row))%Qc
                     (arith_mean (trailing kl (i + w) row)))
               hundred).
Proof.
  intros Hs Hsw Hl Hlw Hw Hlen Hi. unfold macd_row.
  rewrite nth_error_map, !nth_error_zip_with.
  rewrite !ma_trail_nth by assumption. reflexivity.
Qed.

(** The percent change as a whole tensor, cut to the common length. *)
Lemma pct_sliced (time w : nat) (rows : list (list Qc)) :
  2 <= w -> w <= time ->
  slice_cols_from (- Z.of_nat (time - w + 1))
    (T2 (time - 1)
        (map (fun r => map (fun x => nsub x (Fin 1%Qc))
                           (zip_with qdiv (skipn 1 r) (firstn (time - 1) r)))
             rows))
  = Some (T2 (time - w + 1)
            (map (fun r => skipn (w - 2)
                             (map (fun x => nsub x (Fin 1%Qc))
                                  (zip_with qdiv (skipn 1 r) (firstn (time - 1) r))))
                 rows)).
Proof.
  intros Hw2 Hw.
  rewrite slice_cols_from_rows by lia.
  now replace (time - 1 - (time - w + 1)) with (w - 2) by lia.
Qed.

(** Entry [i] of the cut percent change compares the last two prices of
    the window of length [w] starting at [i]. *)
Lemma pct_row_nth (time w i : nat) (row : list Qc) (p0 p1 : Qc) :
  2 <= w -> length row = time ->
  nth_error row (i + w - 2) = Some p0 -> nth_error row (i + w - 1) = Some p1 ->
  nth_error (pct_row time w row) i
  = Some (nmul (nsub (qdiv p1 p0) (Fin 1%Qc)) hundred).
Proof.
  intros Hw Hlen H0 H1. unfold pct_row.
  rewrite nth_error_map, nth_error_skipn.
  replace (w - 2 + i) with (i + w - 2) by lia.
  rewrite (percent_change_row_nth time (i + w - 2) row p0 p1); auto.
  now replace (i + w - 2 + 1) with (i + w - 1) by lia.
Qed.

(** Column [l] of the sliding blocks of a row is the window of [w] prices
    starting at [l]. *)
Lemma unfold_row_column (w n l : nat) (row : list Qc) :
  l < n -> n + w <= length row + 1 ->
  map (fun kr => nth l kr 0%Qc) (unfold_row w n row) = firstn w (skipn l row).
Proof.
  intros Hl Hn. unfold unfold_row. rewrite map_map.
  apply nth_error_ext. intros j.
  rewrite nth_error_map, nth_error_seq, nth_error_firstn, nth_error_skipn.
  destruct (Nat.ltb_spec j w) as [Hj|Hj]; [|reflexivity].
  cbn [option_map]. rewrite nth_firstn.
  destruct (Nat.ltb_spec l n); [|lia].
  rewrite nth_skipn. symmetry.
  replace (l + j) with (j + l) by lia.
  apply nth_error_nth'. lia.
Qed.

Lemma var_block_nth (w n l : nat) (row : list Qc) :
  l < n -> n + w <= length row + 1 ->
  nth_error (var_block n (unfold_row w n row)) l
  = Some (var_unbiased (firstn w (skipn l row))).
Proof.
  intros Hl Hn. unfold var_block.
  rewrite nth_error_map, nth_error_seq.
  destruct (Nat.ltb_spec l n); [|lia].
  cbn [option_map Nat.add]. now rewrite unfold_row_column.
Qed.

Lemma length_var_block (n : nat) (b : list (list Qc)) : length (var_block n b) = n.
Proof. unfold var_block. now rewrite length_map, length_seq. Qed.

Lemma unfold_rows (time w : nat) (rows : list (list Qc)) :
  1 <= w <= time ->
  unfold (T2 time rows) (Z.of_nat w)
  = Some (T3 w (time - w + 1) (map (unfold_row w (time - w + 1)) rows)).
Proof.
  intros Hw. cbn [unfold].
  destruct (Z.leb_spec (Z.of_nat w) 0); [lia|].
  destruct (Z.ltb_spec (Z.of_nat time) (Z.of_nat w)); [lia|].
  cbn [orb]. now rewrite Nat2Z.id.
Qed.

(** The rolling variance over the long moving average, as a whole
    tensor. *)
Lemma var_scaled_rows (time w : nat) (rows : list (list Qc)) :
  1 <= w <= time ->
  bop (fun v m => ndiv v (Fin m))
      (var_dim1 (T3 w (time - w + 1) (map (unfold_row w (time - w + 1)) rows)))
      (T2 (time - w + 1) (map (ma_trail time w w) rows))
  = Some (T2 (time - w + 1)
            (map (fun r => zip_with (fun v m => ndiv v (Fin m))
                             (var_block (time - w + 1) (unfold_row w (time - w + 1) r))
                             (ma_trail time w w r))
                 rows)).
Proof.
  intros Hw.
  unfold var_dim1. cbn [dim2 items]. rewrite map_map.
  apply (bop_rowwise _ _
           (fun r => var_block (time - w + 1) (unfold_row w (time - w + 1) r))).
  apply Forall_forall. intros r _.
  rewrite length_var_block, length_ma_trail; lia.
Qed.

Lemma var_row_nth (time w i : nat) (row : list Qc) :
  1 <= w -> w <= time -> length row = time -> i < time - w + 1 ->
  nth_error (var_row time w row) i
  = Some (nmul (ndiv (var_unbiased (trailing w (i + w) row))
                     (Fin (arith_mean (trailing w (i + w) row))))
               hundred).
Proof.
  intros Hw1 Hw Hlen Hi. unfold var_row.
  rewrite nth_error_map, nth_error_zip_with.
  rewrite var_block_nth, ma_trail_nth by lia.
  unfold trailing. replace (i + w - w) with i by lia. reflexivity.
Qed.

(** With [series=True] and a window from 6 up to the number of prices,
    [create_indicators] returns four matrices of the common length, each
    computed row by row. *)
Lemma create_indicators_series_rows (time w : nat) (rows : list (list Qc)) :
  Forall (fun r => length r = time) rows ->
  6 <= w -> w <= time ->
  create_indicators (T2 time rows) (Z.of_nat w) true
  = Some (Indicators
            (T2 (time - w + 1) (map (macd_row time w (w / 6) (w / 2)) rows))
            (T2 (time - w + 1) (map (macd_row time w (w / 3) w) rows))
            (T2 (time - w + 1) (map (pct_row time w) rows))
            (T2 (time - w + 1) (map (var_row time w) rows))).
Proof.
  intros Hwf Hw6 Hw.
  assert (H2 : 1 <= w / 2 /\ w / 2 <= w).
  { split; [apply Nat.div_le_lower_bound; lia | apply Nat.Div0.div_le_upper_bound; lia]. }
  assert (H3 : 1 <= w / 3 /\ w / 3 <= w).
  { split; [apply Nat.div_le_lower_bound; lia | apply Nat.Div0.div_le_upper_bound; lia]. }
  assert (H6 : 1 <= w / 6 /\ w / 6 <= w).
  { split; [apply Nat.div_le_lower_bound; lia | apply Nat.Div0.div_le_upper_bound; lia]. }
  unfold create_indicators.
  rewrite input_length_of_nat by assumption.
  change 2%Z with (Z.of_nat 2). change 6%Z with (Z.of_nat 6).
  change 3%Z with (Z.of_nat 3).
  rewrite !quot_of_nat by discriminate.
  unfold latest_unless.
  rewrite !moving_average_rows by lia. cbn [bind].
  rewrite !moving_average_sliced by lia. cbn [bind].
  rewrite !spread_rows by lia. cbn [bind].
  rewrite !ratio_rows by lia. cbn [bind].
  rewrite percent_change_rows by (assumption || lia). cbn [bind].
  rewrite pct_sliced by lia. cbn [bind].
  rewrite unfold_rows by lia. cbn [bind].
  rewrite var_scaled_rows by lia. cbn [bind tmap].
  rewrite !map_map. reflexivity.
Qed.

Lemma entry_rows {A B} (n : nat) (g : A -> list B) (rows : list A) (b i : nat) (row : A) :
  nth_error rows b = Some row ->
  entry (T2 n (map g rows)) b i = nth_error (g row) i.
Proof.
  intros Hrow. cbn [entry]. now rewrite nth_error_map, Hrow.
Qed.

Lemma wf_rows {A B} (n : nat) (g : A -> list B) (rows : list A) :
  (forall r, In r rows -> length (g r) = n) -> wf (T2 n (map g rows)).
Proof.
  intros H. cbn [wf]. apply Forall_forall. intros r' Hin.
  apply in_map_iff in Hin as (r & <- & Hr). auto.
Qed.

(** The last two prices before time [stop]. *)
Lemma trailing_two (stop : nat) (row : list Qc) :
  2 <= stop -> stop <= length row ->
  exists p0 p1,
    nth_error row (stop - 2) = Some p0 /\
    nth_error row (stop - 1) = Some p1 /\
    trailing 2 stop row = [p0; p1].
Proof.
  intros H2 Hs. unfold trailing.
  pose proof (nth_error_skipn (stop - 2) row 0) as E0.
  pose proof (nth_error_skipn (stop - 2) row 1) as E1.
  pose proof (length_skipn (stop - 2) row) as El.
  replace (stop - 2 + 0) with (stop - 2) in E0 by lia.
  replace (stop - 2 + 1) with (stop - 1) in E1 by lia.
  destruct (skipn (stop - 2) row) as [|p0 [|p1 rest]]; cbn [length] in El; try lia.
  exists p0, p1. cbn in E0, E1. auto.
Qed.

Lemma length_macd_row (time w ks kl : nat) (row : list Qc) :
  1 <= ks -> ks <= w -> 1 <= kl -> kl <= w -> w <= time ->
  length (macd_row time w ks kl row) = time - w + 1.
Proof.
  intros Hs Hsw Hl Hlw Hw. unfold macd_row.
  rewrite length_map, !length_zip_with, !length_ma_trail by assumption. lia.
Qed.

Lemma length_pct_row (time w : nat) (row : list Qc) :
  2 <= w -> w <= time -> length row = time ->
  length (pct_row time w row) = time - w + 1.
Proof.
  intros Hw2 Hw Hlen. unfold pct_row.
  rewrite length_map, length_skipn, length_map, length_zip_with.
  rewrite length_skipn, length_firstn. lia.
Qed.

Lemma length_var_row (time w : nat) (row : list Qc) :
  1 <= w -> w <= time ->
  length (var_row time w row) = time - w + 1.
Proof.
  intros Hw1 Hw. unfold var_row.
  rewrite length_map, length_zip_with, length_var_block, length_ma_trail by lia. lia.
Qed.

Lemma window_fractions (w : nat) :
  6 <= w ->
  (1 <= w / 6 /\ w / 6 <= w) /\ (1 <= w / 3 /\ w / 3 <= w) /\ (1 <= w / 2 /\ w / 2 <= w).
Proof.
  intros Hw.
  repeat split;
    solve [apply Nat.div_le_lower_bound; lia | apply Nat.Div0.div_le_upper_bound; lia].
Qed.

(** C5.  For prices of shape (batch x T) and a window [w] with
    [6 <= w <= T] (so that every component indicator is defined),
    [create_indicators] with [series=True] returns four matrices of shape
    (batch x T - w + 1), and entry [i] of each is computed from prices that
    end at the same time, [i + w - 1]: the means of the last [w/6], [w/2],
    [w/3] and [w] prices up to there, the last two prices up to there, and
    the variance and mean of the last [w] prices up to there. *)
Theorem create_indicators_series_aligned (time w : nat) (rows : list (list Qc)) :
  Forall (fun r => length r = time) rows ->
  6 <= w -> w <= time ->
  exists d,
    create_indicators (T2 time rows) (Z.of_nat w) true = Some d /\
    (shape (macd1 d) = [length rows; time - w + 1] /\ wf (macd1 d)) /\
    (shape (macd2 d) = [length rows; time - w + 1] /\ wf (macd2 d)) /\
    (shape (pct d) = [length rows; time - w + 1] /\ wf (pct d)) /\
    (shape (var d) = [length rows; time - w + 1] /\ wf (var d)) /\
    forall b row i, nth_error rows b = Some row -> i < time - w + 1 ->
      let stop := i + w in
      let mean k := arith_mean (trailing k stop row) in
      entry (macd1 d) b i
        = Some (nmul (qdiv (Qcminus (mean (w / 6)) (mean (w / 2))) (mean (w / 2))) hundred) /\
      entry (macd2 d) b i
        = Some (nmul (qdiv (Qcminus (mean (w / 3)) (mean w)) (mean w)) hundred) /\
      (exists p0 p1,
          trailing 2 stop row = [p0; p1] /\
          entry (pct d) b i = Some (nmul (nsub (qdiv p1 p0) (Fin 1%Qc)) hundred)) /\
      entry (var d) b i
        = Some (nmul (ndiv (var_unbiased (trailing w stop row)) (Fin (mean w))) hundred).
Proof.
  intros Hwf Hw6 Hw.
  destruct (window_fractions w Hw6) as (H6 & H3 & H2).
  pose proof Hwf as Hlen. rewrite Forall_forall in Hlen.
  eexists. split; [apply create_indicators_series_rows; assumption|].
  cbn [macd1 macd2 pct var shape]. rewrite !length_map.
  split; [split; [reflexivity | apply wf_rows; intros; apply length_macd_row; lia]|].
  split; [split; [reflexivity | apply wf_rows; intros; apply length_macd_row; lia]|].
  split; [split; [reflexivity | apply wf_rows; intros; apply length_pct_row; auto; lia]|].
  split; [split; [reflexivity | apply wf_rows; intros; apply length_var_row; lia]|].
  intros b row i Hrow Hi.
  assert (Hr : length row = time) by (apply Hlen; eapply nth_error_In; eauto).
  rewrite !(entry_rows _ _ rows b i row Hrow).
  split; [apply macd_row_nth; lia|].
  split; [apply macd_row_nth; lia|].
  split; [|apply var_row_nth; lia].
  destruct (trailing_two (i + w) row) as (p0 & p1 & E0 & E1 & Etr); [lia..|].
  exists p0, p1. split; [exact Etr|].
  apply pct_row_nth; auto; lia.
Qed.

(** C7.  Nothing guards the divisions by the long moving average: where
    it is zero, [create_indicators] raises no error and returns the
    undefined value of a division by zero, in the first MACD ratio (long
    window [w/2]), in the second (long window [w]) and in the normalised
    variance. *)
Theorem create_indicators_zero_divisor (time w : nat) (rows : list (list Qc)) :
  Forall (fun r => length r = time) rows ->
  6 <= w -> w <= time ->
  exists d,
    create_indicators (T2 time rows) (Z.of_nat w) true = Some d /\
    forall b row i, nth_error rows b = Some row -> i < time - w + 1 ->
      (arith_mean (trailing (w / 2) (i + w) row) = 0%Qc ->
       entry (macd1 d) b i = Some Undef) /\
      (arith_mean (trailing w (i + w) row) = 0%Qc ->
       entry (macd2 d) b i = Some Undef /\ entry (var d) b i = Some Undef).
Proof.
  intros Hwf Hw6 Hw.
  destruct (window_fractions w Hw6) as (H6 & H3 & H2).
  pose proof Hwf as Hlen. rewrite Forall_forall in Hlen.
  eexists. split; [apply create_indicators_series_rows; assumption|].
  cbn [macd1 macd2 var].
  intros b row i Hrow Hi.
  assert (Hr : length row = time) by (apply Hlen; eapply nth_error_In; eauto).
  rewrite !(entry_rows _ _ rows b i row Hrow).
  rewrite !macd_row_nth, var_row_nth by lia.
  split.
  - intros ->. now rewrite qdiv_zero.
  - intros ->. rewrite qdiv_zero. split; [reflexivity|].
    now destruct (var_unbiased (trailing w (i + w) row)).
Qed.

Lemma moving_average_defined (time : nat) (rows : list (list Qc)) (w : Z)
      (t : tensor Qc) :
  moving_average (T2 time rows) w = Some t -> (1 <= w <= Z.of_nat time)%Z.
Proof.
  unfold moving_average.
  destruct (Z.ltb_spec w 0); [discriminate|].
  cbn [conv1d]. rewrite length_ma_kernel.
  destruct (Nat.eqb_spec (Z.to_nat w) 0); [discriminate|].
  destruct (Nat.ltb_spec time (Z.to_nat w)); [discriminate|].
  intros _. lia.
Qed.

(** The windows for which every component indicator is defined are those
    from 6 up to the number of prices. *)
Lemma create_indicators_defined (time : nat) (rows : list (list Qc)) (w : Z)
      (series : bool) (d : indicators) :
  create_indicators (T2 time rows) w series = Some d ->
  (6 <= w <= Z.of_nat time)%Z.
Proof.
  intros H. unfold create_indicators in H. bind_inv H.
  repeat match goal with
    | E : moving_average _ _ = Some _ |- _ => apply moving_average_defined in E
    end.
  assert (w < 6 -> Z.quot w 6 <= 0)%Z.
  { intros Hw. destruct (Z.le_gt_cases 0 w).
    - rewrite Z.quot_small; lia.
    - apply Z.quot_le_upper_bound; lia. }
  lia.
Qed.

(** ** The latest values only *)

Lemma select_col_vector {A} (i : Z) (t t' : tensor A) :
  select_col i t = Some t' -> exists v, t' = T1 v.
Proof.
  destruct t as [v | c rows]; cbn [select_col]; [discriminate|].
  destruct (index_pos c i); [|discriminate].
  destruct (sequence _); [|discriminate].
  intros H. injection H as <-. eauto.
Qed.

Lemma slice_cols_from_matrix {A} (start : Z) (t t' : tensor A) :
  slice_cols_from start t = Some t' -> exists c rows, t' = T2 c rows.
Proof.
  destruct t as [v | c rows]; cbn [slice_cols_from]; [discriminate|].
  intros H. injection H as <-. eauto.
Qed.

Lemma bop_vector_matrix {A B C} (f : A -> B -> C) (v : list A) (c : nat)
      (rows : list (list B)) (t : tensor C) :
  bop f (T1 v) (T2 c rows) = Some t -> exists c' rows', t = T2 c' rows'.
Proof.
  cbn [bop].
  destruct (bdim 1 (length rows)); [|discriminate].
  destruct (bdim (length v) c); [|discriminate].
  intros H. injection H as <-. eauto.
Qed.

(** With [series=False], whenever [create_indicators] returns, the entry
    for the variance is a matrix: the vector of latest variances has been
    divided by the whole series of the long moving average. *)
Lemma create_indicators_latest_var_matrix (prices : tensor Qc) (window : Z)
      (d : indicators) :
  create_indicators prices window false = Some d ->
  exists c rows, var d = T2 c rows.
Proof.
  intros H. unfold create_indicators in H.
  destruct prices as [v | time rows]; [discriminate|].
  unfold latest_unless in H. bind_inv H.
  injection H as <-. cbn [var].
  repeat match goal with
    | E : select_col _ _ = Some _ |- _ => apply select_col_vector in E as (? & ->)
    | E : slice_cols_from _ _ = Some _ |- _ =>
        apply slice_cols_from_matrix in E as (? & ? & ->)
    end.
  match goal with
  | E : bop (fun v m => ndiv v (Fin m)) _ _ = Some _ |- _ =>
      apply bop_vector_matrix in E as (c & rs & ->)
  end.
  cbn [tmap]. eauto.
Qed.

(** C1 (the code departs from it).  With [series=False] three of the four
    indicators are vectors of one value per batch element, but the variance
    is divided by the long moving average of every time step: for two
    instruments over seven steps and a window of 6 it is a 2 x 2 matrix, and
    for three instruments the two shapes do not broadcast and the call
    fails. *)
Theorem create_indicators_latest_var_shape :
  option_map (fun d => (shape (macd1 d), shape (macd2 d), shape (pct d), shape (var d)))
             (create_indicators prices_two 6 false)
  = Some ([2], [2], [2], [2; 2])
  /\ create_indicators prices_three 6 false = None.
Proof. split; vm_compute; reflexivity. Qed.

(** ** The predictor network *)

Lemma shape_matrix {A} (t : tensor A) (n c : nat) :
  shape t = [n; c] -> exists rows, t = T2 c rows /\ length rows = n.
Proof.
  destruct t as [v | c' rows]; cbn; intros H; [discriminate|].
  injection H as <- <-. eauto.
Qed.

Lemma apply_linear_shape (tr : bool) (i o n : nat) (w : nat -> nat -> R) (b : nat -> R)
      (x : tensor R) :
  shape x = [n; i] ->
  exists y, apply_layer tr (Linear i o w b) x = Some y /\ shape y = [n; o] /\ wf y.
Proof.
  intros Hx. apply shape_matrix in Hx as (rows & -> & Hn).
  cbn [apply_layer]. rewrite Nat.eqb_refl.
  eexists. split; [reflexivity|]. split.
  - cbn. now rewrite length_map, Hn.
  - apply wf_rows. intros r _. unfold linear_row.
    now rewrite length_map, length_seq.
Qed.

Lemma apply_batchnorm_shape (tr : bool) (c n : nat) (bn : batchnorm) (x : tensor R) :
  shape x = [n; c] -> (tr = true -> n <> 1) ->
  exists y, apply_layer tr (BatchNorm1d c bn) x = Some y /\ shape y = [n; c] /\ wf y.
Proof.
  intros Hx Hn. apply shape_matrix in Hx as (rows & -> & Hrows).
  cbn [apply_layer]. rewrite Nat.eqb_refl. cbn [negb].
  assert (E : tr && (length rows =? 1) = false).
  { destruct tr; [|reflexivity]. cbn. apply Nat.eqb_neq. rewrite Hrows. auto. }
  rewrite E.
  eexists. split; [reflexivity|]. split.
  - cbn. now rewrite length_map, Hrows.
  - apply wf_rows. intros r _. unfold batch_norm_row.
    now rewrite length_map, length_seq.
Qed.

Lemma apply_relu_shape (tr : bool) (c n : nat) (x : tensor R) :
  shape x = [n; c] -> wf x ->
  exists y, apply_layer tr ReLU x = Some y /\ shape y = [n; c] /\ wf y.
Proof.
  intros Hx Hwf. apply shape_matrix in Hx as (rows & -> & Hrows).
  cbn [apply_layer tmap].
  eexists. split; [reflexivity|]. split.
  - cbn. now rewrite length_map, Hrows.
  - apply wf_rows. intros r Hr. rewrite length_map.
    cbn [wf] in Hwf. rewrite Forall_forall in Hwf. auto.
Qed.

(** A linear layer, its normalisation and possibly its activation keep the
    batch and change the width. *)
Lemma sequential_block (tr relu : bool) (p : layer_params) (i o n : nat)
      (rest : list layer) (x : tensor R) :
  shape x = [n; i] -> (tr = true -> n <> 1) ->
  exists y,
    shape y = [n; o] /\ wf y /\
    sequential tr ([Linear i o (weight p) (bias p); BatchNorm1d o (norm p)]
                   ++ (if relu then [ReLU] else []) ++ rest) x
    = sequential tr rest y.
Proof.
  intros Hx Hn.
  destruct (apply_linear_shape tr i o n (weight p) (bias p) x Hx) as (y1 & E1 & S1 & _).
  destruct (apply_batchnorm_shape tr o n (norm p) y1 S1 Hn) as (y2 & E2 & S2 & W2).
  cbn [app sequential]. rewrite E1. cbn [bind]. rewrite E2. cbn [bind].
  destruct relu.
  - destruct (apply_relu_shape tr o n y2 S2 W2) as (y3 & E3 & S3 & W3).
    exists y3. cbn [app sequential]. rewrite E3. cbn [bind]. auto.
  - exists y2. cbn [app]. auto.
Qed.

Lemma sequential_finput (tr : bool) (p : nat -> layer_params) (ic n : nat) (x : tensor R) :
  shape x = [n; ic] -> (tr = true -> n <> 1) ->
  exists y,
    sequential tr (create_net p [ic; 8; 16; 16] false) x = Some y /\
    shape y = [n; 16] /\ wf y.
Proof.
  intros Hx Hn.
  destruct (sequential_block tr true (p 0) ic 8 n
              (create_net (fun i => p (S i)) [8; 16; 16] false) x Hx Hn)
    as (y1 & S1 & _ & E1).
  destruct (sequential_block tr true (p 1) 8 16 n
              (create_net (fun i => p (S (S i))) [16; 16] false) y1 S1 Hn)
    as (y2 & S2 & _ & E2).
  destruct (sequential_block tr true (p 2) 16 16 n [] y2 S2 Hn)
    as (y3 & S3 & W3 & E3).
  exists y3. split; [|auto].
  etransitivity; [exact E1|]. etransitivity; [exact E2|]. exact E3.
Qed.

Lemma sequential_foutput (tr : bool) (p : nat -> layer_params) (n : nat) (x : tensor R) :
  shape x = [n; 16] -> (tr = true -> n <> 1) ->
  exists y,
    sequential tr (create_net p [16; 16; 8; 3] true) x = Some y /\
    shape y = [n; 3] /\ wf y.
Proof.
  intros Hx Hn.
  destruct (sequential_block tr true (p 0) 16 16 n
              (create_net (fun i => p (S i)) [16; 8; 3] true) x Hx Hn)
    as (y1 & S1 & _ & E1).
  destruct (sequential_block tr true (p 1) 16 8 n
              (create_net (fun i => p (S (S i))) [8; 3] true) y1 S1 Hn)
    as (y2 & S2 & _ & E2).
  destruct (sequential_block tr false (p 2) 8 3 n [] y2 S2 Hn)
    as (y3 & S3 & W3 & E3).
  exists y3. split; [|auto].
  etransitivity; [exact E1|]. etransitivity; [exact E2|]. exact E3.
Qed.

Lemma gru_forward_shape (g : gru_cell) (n : nat) (x hidden : tensor R) :
  shape x = [n; input_size g] -> shape hidden = [n; hidden_size g] ->
  exists h,
    gru_forward g x hidden = Some h /\ shape h = [n; hidden_size g] /\ wf h.
Proof.
  intros Hx Hh.
  apply shape_matrix in Hx as (xs & -> & Hxs).
  apply shape_matrix in Hh as (hs & -> & Hhs).
  cbn [gru_forward]. rewrite !Nat.eqb_refl, Hxs, Hhs, Nat.eqb_refl. cbn [andb].
  eexists. split; [reflexivity|]. split.
  - cbn. rewrite length_zip_with, Hxs, Hhs. now rewrite Nat.min_id.
  - cbn [wf]. apply Forall_forall. intros r Hr.
    apply In_nth_error in Hr as (k & Hk).
    rewrite nth_error_zip_with in Hk.
    destruct (nth_error xs k), (nth_error hs k); try discriminate.
    injection Hk as <-. unfold gru_row. now rewrite length_map, length_seq.
Qed.

Lemma select_step_shape (t : nat) (x : tensor3 R) :
  t < dim1 x ->
  exists xt, select_step t x = Some xt /\ shape xt = [length (items x); dim2 x].
Proof.
  intros Ht. unfold select_step.
  destruct (Nat.ltb_spec t (dim1 x)); [|lia].
  eexists. split; [reflexivity|]. cbn. now rewrite length_map.
Qed.

(** The loop over the time steps keeps the shape of the hidden state. *)
Lemma gru_loop_shape (g : gru_cell) (x : tensor3 R) (steps : list nat) :
  Forall (fun t => t < dim1 x) steps ->
  dim2 x = input_size g ->
  forall hidden,
    shape hidden = [length (items x); hidden_size g] ->
    exists h,
      gru_loop g x steps hidden = Some h /\
      shape h = [length (items x); hidden_size g].
Proof.
  intros Hsteps Hin.
  induction Hsteps as [|t steps Ht _ IH]; intros hidden Hh.
  - exists hidden. auto.
  - destruct (select_step_shape t x Ht) as (xt & Ext & Sxt).
    rewrite Hin in Sxt.
    destruct (gru_forward_shape g _ xt hidden Sxt Hh) as (h1 & E1 & S1 & _).
    destruct (IH h1 S1) as (h & E & S).
    exists h. cbn [gru_loop]. rewrite Ext. cbn [bind]. rewrite E1. cbn [bind]. auto.
Qed.

Lemma reshape2_shape (x : tensor3 R) :
  exists y,
    reshape2 (length (items x) * dim1 x) (dim2 x) x = Some y /\
    shape y = [length (items x) * dim1 x; dim2 x].
Proof.
  unfold reshape2. rewrite Nat.eqb_refl.
  eexists. split; [reflexivity|]. cbn. now rewrite length_map, length_seq.
Qed.

Lemma reshape3_shape (b t c : nat) (y : tensor R) :
  shape y = [b * t; c] ->
  exists x,
    reshape3 b t c y = Some x /\ length (items x) = b /\ dim1 x = t /\ dim2 x = c.
Proof.
  intros Hy. apply shape_matrix in Hy as (rows & -> & Hrows).
  cbn [reshape3]. rewrite Hrows, Nat.eqb_refl.
  eexists. split; [reflexivity|]. cbn. now rewrite length_map, length_seq.
Qed.

Lemma Rsum_cons (x : R) (l : list R) : Rsum (x :: l) = (x + Rsum l)%R.
Proof. reflexivity. Qed.

Lemma Rsum_scaled (f : R -> R) (total : R) (l : list R) :
  Rsum (map (fun x => (f x / total)%R) l) = (Rsum (map f l) / total)%R.
Proof.
  induction l as [|x l IH]; cbn [map].
  - cbn. unfold Rdiv. now rewrite Rmult_0_l.
  - rewrite !Rsum_cons, IH. unfold Rdiv. now rewrite Rmult_plus_distr_r.
Qed.

Lemma Rsum_exp_pos (l : list R) : l <> [] -> (0 < Rsum (map exp l))%R.
Proof.
  induction l as [|x l IH]; [congruence|]. intros _.
  cbn [map]. rewrite Rsum_cons.
  pose proof (exp_pos x) as Hx.
  destruct l as [|y l].
  - cbn. lra.
  - assert (0 < Rsum (map exp (y :: l)))%R by (apply IH; discriminate). lra.
Qed.

(** The entries of a softmax of a row that is not empty sum to 1, and each
    of them lies strictly between 0 and 1 or is the only one. *)
Lemma softmax_row_sum (r : list R) : r <> [] -> Rsum (softmax_row r) = 1%R.
Proof.
  intros Hr. unfold softmax_row. rewrite Rsum_scaled.
  pose proof (Rsum_exp_pos r Hr) as Hpos.
  unfold Rdiv. apply Rinv_r. lra.
Qed.

Lemma softmax_row_positive (r : list R) (p : R) :
  In p (softmax_row r) -> (0 < p)%R.
Proof.
  unfold softmax_row. rewrite in_map_iff. intros (x & <- & Hx).
  assert (Hr : r <> []) by (intros ->; contradiction).
  pose proof (Rsum_exp_pos r Hr). pose proof (exp_pos x).
  now apply Rdiv_lt_0_compat.
Qed.

Lemma softmax_shape (n c : nat) (x : tensor R) :
  shape x = [n; c] -> wf x -> c <> 0 ->
  exists rows,
    softmax_dim1 x = Some (T2 c rows) /\
    length rows = n /\
    Forall (fun r => length r = c /\ Rsum r = 1%R /\ Forall (fun p => (0 < p)%R) r) rows.
Proof.
  intros Hx Hwf Hc. apply shape_matrix in Hx as (rows & -> & Hrows).
  cbn [softmax_dim1]. eexists. split; [reflexivity|].
  split; [now rewrite length_map|].
  cbn [wf] in Hwf. rewrite Forall_forall in Hwf.
  apply Forall_forall. intros r' Hr'.
  apply in_map_iff in Hr' as (r & <- & Hr).
  pose proof (Hwf r Hr) as Hlen.
  split; [unfold softmax_row; now rewrite length_map|].
  split.
  - apply softmax_row_sum. intros ->. cbn in Hlen. congruence.
  - apply Forall_forall. intros p Hp. eapply softmax_row_positive; eauto.
Qed.

(** C8.  For every input [forward] accepts (batch x time x channels in
    recurrent mode, batch x channels otherwise), whatever the parameters
    and the mode, the output has one row per batch element, and each row is
    a vector of 3 positive entries that sum to 1. *)
Theorem forward_rows_probability (theta : parameters) (input_channels : nat)
        (rec mode : bool) (x : input) :
  valid_input (train (init theta input_channels rec) mode) input_channels x ->
  exists rows,
    forward (train (init theta input_channels rec) mode) x = Some (T2 3 rows) /\
    length rows = batch_of x /\
    Forall (fun r => length r = 3 /\ Rsum r = 1%R /\ Forall (fun p => (0 < p)%R) r) rows.
Proof.
  intros Hvalid.
  destruct x as [x | [v | c rows]]; cbn in Hvalid; [| contradiction |].
  - (* recurrent *)
    destruct Hvalid as (-> & Hc & Hmode).
    unfold forward.
    cbn [recurrent training finput foutput gru finput_layer_sizes train init last].
    set (batch := length (items x)) in *.
    destruct (reshape2_shape x) as (flat & Eflat & Sflat).
    fold batch in Eflat, Sflat. rewrite Hc in Sflat.
    rewrite Eflat. cbn [bind].
    destruct (sequential_finput mode (finput_init theta) input_channels
                (batch * dim1 x) flat Sflat) as (y & Ey & Sy & _).
    { intros Hm E. apply (Hmode Hm). apply Nat.eq_mul_1 in E. tauto. }
    rewrite Ey. cbn [bind].
    destruct (reshape3_shape batch (dim1 x) 16 y Sy) as (xin & Exin & Hb & Ht & Hw).
    rewrite Exin. cbn [bind].
    destruct (gru_loop_shape
                (GRUCell 16 16 (gru_weight_ih theta) (gru_weight_hh theta)
                         (gru_bias_ih theta) (gru_bias_hh theta))
                xin (seq 0 (dim1 x))) with (hidden := T2 16 (repeat (repeat 0%R 16) batch))
      as (h & Eh & Sh).
    { apply Forall_forall. intros t Hin. apply in_seq in Hin. lia. }
    { exact Hw. }
    { cbn. now rewrite repeat_length, Hb. }
    rewrite Eh. cbn [bind].
    rewrite Hb in Sh. cbn [hidden_size] in Sh.
    destruct (sequential_foutput mode (foutput_init theta) batch h Sh Hmode)
      as (out & Eout & Sout & Wout).
    rewrite Eout. cbn [bind].
    destruct (softmax_shape batch 3 out Sout Wout) as (rows & E & Hlen & Hrows);
      [discriminate|].
    exists rows. auto.
  - (* not recurrent *)
    destruct Hvalid as (-> & -> & Hmode).
    unfold forward.
    cbn [recurrent training finput foutput gru finput_layer_sizes train init].
    destruct (sequential_finput mode (finput_init theta) input_channels
                (length rows) (T2 input_channels rows) eq_refl Hmode)
      as (y & Ey & Sy & _).
    rewrite Ey. cbn [bind].
    destruct (sequential_foutput mode (foutput_init theta) (length rows) y Sy Hmode)
      as (out & Eout & Sout & Wout).
    rewrite Eout. cbn [bind].
    destruct (softmax_shape (length rows) 3 out Sout Wout) as (orows & E & Hlen & Hrows);
      [discriminate|].
    exists orows. auto.
Qed.

(** *** Whenever [forward] returns *)

Lemma sequential_app (tr : bool) (net1 net2 : list layer) (x : tensor R) :
  sequential tr (net1 ++ net2) x
  = bind (sequential tr net1 x) (sequential tr net2).
Proof.
  revert x. induction net1 as [|l net1 IH]; intros x; cbn [app sequential].
  - reflexivity.
  - destruct (apply_layer tr l x); cbn [bind]; auto.
Qed.

(** The decoder ends in a normalisation over 3 features, so whatever it
    returns is a matrix of rows of 3. *)
Lemma sequential_foutput_rows (tr : bool) (p : nat -> layer_params) (x y : tensor R) :
  sequential tr (create_net p [16; 16; 8; 3] true) x = Some y ->
  exists rows, y = T2 3 rows /\ Forall (fun r => length r = 3) rows.
Proof.
  change (create_net p [16; 16; 8; 3] true)
    with ([Linear 16 16 (weight (p 0)) (bias (p 0)); BatchNorm1d 16 (norm (p 0)); ReLU;
           Linear 16 8 (weight (p 1)) (bias (p 1)); BatchNorm1d 8 (norm (p 1)); ReLU;
           Linear 8 3 (weight (p 2)) (bias (p 2))]
          ++ [BatchNorm1d 3 (norm (p 2))]).
  rewrite sequential_app. intros H. bind_inv H.
  cbn [sequential] in H. bind_inv H. injection H as <-.
  destruct t as [v | c rows]; cbn [apply_layer] in E0; [discriminate|].
  destruct (Nat.eqb_spec c 3) as [-> | _]; cbn [negb] in E0; [|discriminate].
  destruct (tr && (length rows =? 1)); [discriminate|].
  injection E0 as <-.
  eexists. split; [reflexivity|].
  apply Forall_forall. intros r Hr.
  apply in_map_iff in Hr as (r0 & <- & _).
  unfold batch_norm_row. now rewrite length_map, length_seq.
Qed.

(** On any input at all, an output of [forward] is a matrix whose rows
    are vectors of 3 positive entries that sum to 1. *)
Lemma forward_output_rows (theta : parameters) (input_channels : nat)
      (rec mode : bool) (x : input) (out : tensor R) :
  forward (train (init theta input_channels rec) mode) x = Some out ->
  exists rows,
    out = T2 3 rows /\
    Forall (fun r => length r = 3 /\ Rsum r = 1%R /\ Forall (fun p => (0 < p)%R) r) rows.
Proof.
  intros H. unfold forward in H.
  cbn [recurrent training finput foutput gru finput_layer_sizes train init] in H.
  assert (Hend : forall h y,
             sequential mode (create_net (foutput_init theta) [16; 16; 8; 3] true) h = Some y ->
             softmax_dim1 y = Some out ->
             exists rows,
               out = T2 3 rows /\
               Forall (fun r => length r = 3 /\ Rsum r = 1%R
                                /\ Forall (fun p => (0 < p)%R) r) rows).
  { intros h y Hy Hout.
    apply sequential_foutput_rows in Hy as (rows & -> & Hrows).
    destruct (softmax_shape (length rows) 3 (T2 3 rows) eq_refl Hrows) as (o & Eo & _ & Ho);
      [discriminate|].
    rewrite Eo in Hout. injection Hout as <-. eauto. }
  destruct rec.
  - destruct x as [x | x]; [|discriminate].
    bind_inv H.
    match goal with
    | E : sequential _ (create_net (foutput_init theta) _ _) _ = Some _ |- _ =>
        exact (Hend _ _ E H)
    end.
  - destruct x as [x | [v | c rows]]; try discriminate.
    bind_inv H.
    match goal with
    | E : sequential _ (create_net (foutput_init theta) _ _) _ = Some _ |- _ =>
        exact (Hend _ _ E H)
    end.
Qed.

(** ** The theorems at the example inputs *)

Lemma rows_two_wf : Forall (fun r : list Qc => length r = 7) rows_two.
Proof. repeat constructor. Defined.

Lemma rows_zero_wf : Forall (fun r : list Qc => length r = 6) rows_zero.
Proof. repeat constructor. Defined.

(** The moving average of window 3 over two instruments and seven steps. *)
Lemma moving_average_mean_two :
  exists out,
    moving_average prices_two 3 = Some (T2 5 out) /\
    length out = 2 /\
    forall b row, nth_error rows_two b = Some row ->
      exists orow,
        nth_error out b = Some orow /\
        length orow = 5 /\
        forall i, i < 5 ->
          nth_error orow i = Some (arith_mean (firstn 3 (skipn i row))).
Proof.
  apply (moving_average_mean 7 3 rows_two); [exact rows_two_wf | lia].
Defined.

(** The percent change over two instruments and seven steps. *)
Lemma percent_change_ratio_two :
  exists out,
    percent_change prices_two = Some (T2 6 out) /\
    length out = 2 /\
    forall b row, nth_error rows_two b = Some row ->
      exists orow,
        nth_error out b = Some orow /\
        length orow = 6 /\
        forall t p0 p1,
          nth_error row t = Some p0 -> nth_error row (t + 1) = Some p1 ->
          nth_error orow t = Some (nsub (qdiv p1 p0) (Fin 1%Qc)) /\
          (p0 <> 0%Qc -> nth_error orow t = Some (Fin (p1 / p0 - 1)%Qc)) /\
          (p0 = 0%Qc -> nth_error orow t = Some Undef).
Proof.
  apply (percent_change_ratio 7 rows_two); [exact rows_two_wf | lia].
Defined.

(** The four series for a window of 6 over seven steps: two entries each. *)
Lemma create_indicators_series_two :
  exists d,
    create_indicators prices_two 6 true = Some d /\
    shape (macd1 d) = [2; 2] /\ shape (macd2 d) = [2; 2] /\
    shape (pct d) = [2; 2] /\ shape (var d) = [2; 2].
Proof.
  destruct (create_indicators_series_aligned 7 6 rows_two)
    as (d & Hd & (H1 & _) & (H2 & _) & (H3 & _) & (H4 & _) & _);
    [exact rows_two_wf | lia | lia |].
  exists d. auto.
Defined.

Lemma zero_mean (k : nat) : arith_mean (trailing k 6 (repeat 0%Qc 6)) = 0%Qc.
Proof.
  unfold arith_mean. rewrite Qcsum_zeros.
  - unfold Qcdiv. ring.
  - unfold trailing. apply Forall_forall. intros x Hx.
    apply In_window in Hx. eapply repeat_spec; eauto.
Qed.

(** Prices that are zero throughout: every long moving average is zero. *)
Lemma create_indicators_zero_prices :
  exists d,
    create_indicators prices_zero 6 true = Some d /\
    entry (macd1 d) 0 0 = Some Undef /\
    entry (macd2 d) 0 0 = Some Undef /\
    entry (var d) 0 0 = Some Undef.
Proof.
  destruct (create_indicators_zero_divisor 6 6 rows_zero) as (d & Hd & H);
    [exact rows_zero_wf | lia | lia |].
  exists d. split; [exact Hd|].
  destruct (H 0 (repeat 0%Qc 6) 0 eq_refl) as (H1 & H2); [lia|].
  split; [apply H1, zero_mean|].
  apply H2, zero_mean.
Defined.

(** The measures on two predictions and two truths. *)
Lemma stats_measures_up :
  exists labels r,
    to_categorical (T1 truth_up) = Some (T1 labels) /\
    stats (T2 3 dist_rows_up) (T1 truth_up) = Some r /\
    let preds := map argmax_row dist_rows_up in
    accuracy r = zdiv (Z.of_nat (agreements preds labels)) 2 /\
    precision r = zdiv (Z.of_nat (true_positives preds labels)) (Z.of_nat (positives preds)) /\
    recall r = zdiv (Z.of_nat (true_positives preds labels)) (Z.of_nat (positives labels)).
Proof.
  apply (stats_measures 3 dist_rows_up truth_up); [lia | reflexivity].
Defined.

(** No prediction of category 2: the precision is undefined. *)
Lemma stats_precision_undefined_no_up :
  exists r, stats (T2 3 dist_rows_no_up) (T1 truth_up) = Some r /\ precision r = Undef.
Proof.
  apply (stats_precision_undefined 3 dist_rows_no_up truth_up);
    [lia | reflexivity |].
  repeat constructor; vm_compute; discriminate.
Defined.

(** No truth of category 2: the recall is undefined. *)
Lemma stats_recall_undefined_no_up :
  exists r, stats (T2 3 dist_rows_up) (T1 truth_no_up) = Some r /\ recall r = Undef.
Proof.
  apply (stats_recall_undefined 3 dist_rows_up truth_no_up);
    [lia | reflexivity |].
  intros labels H. vm_compute in H. injection H as <-.
  cbn. intros [H | [H | []]]; discriminate.
Defined.

(** A recurrent network in training mode on a batch of two sequences. *)
Lemma forward_rows_probability_two :
  exists rows,
    forward (train (init theta_ones 4 true) true) (X3 features_two) = Some (T2 3 rows) /\
    length rows = 2 /\
    Forall (fun r => length r = 3 /\ Rsum r = 1%R /\ Forall (fun p => (0 < p)%R) r) rows.
Proof.
  apply (forward_rows_probability theta_ones 4 true true (X3 features_two)).
  cbn. split; [reflexivity | split; [reflexivity | intros _; discriminate]].
Defined.

(** Evaluate both sides, and compare rationals by their values. *)
Ltac qc_eval :=
  vm_compute;
  repeat match goal with
    | |- @eq Qc _ _ => apply Qc_is_canon; reflexivity
    | |- _ => progress f_equal
    end.

(** The evaluator on two predictions, category 2 and category 0, against
    two truths of category 2: one of two is right, the one predicted as 2
    is right, and one of the two labelled 2 is found. *)
Example stats_up_values :
  stats (T2 3 dist_rows_up) (T1 truth_up)
  = Some (Stats (Fin (Q2Qc (1 # 2))) (Fin 1%Qc) (Fin (Q2Qc (1 # 2)))).
Proof.
  qc_eval.
Qed.

(** The cut points themselves: the double 0.3 is category 1 and the double
    -0.3 is category 0. *)
Example to_categorical_boundaries :
  to_categorical (T1 [hi_threshold; lo_threshold; Q2Qc (31 # 100); Q2Qc (-29 # 100)])
  = Some (T1 [1; 0; 2; 1]%Z).
Proof. vm_compute. reflexivity. Qed.

(** The moving average of window 3 over the prices 1, ..., 7. *)
Example moving_average_values :
  moving_average (T2 7 [map Qc_of_Z [1; 2; 3; 4; 5; 6; 7]%Z]) 3
  = Some (T2 5 [map Qc_of_Z [2; 3; 4; 5; 6]%Z]).
Proof.
  qc_eval.
Qed.

(** The percent change of the prices 2, 3, 0, 6: the step from the zero
    price is the undefined value. *)
Example percent_change_values :
  percent_change (T2 4 [map Qc_of_Z [2; 3; 0; 6]%Z])
  = Some (T2 3 [[Fin (Q2Qc (1 # 2)); Fin (Q2Qc (-1)); Undef]]).
Proof.
  qc_eval.
Qed.

(** * Further properties *)

(** ** The labeler *)

(** X1.  [to_categorical] labels every value of a vector, and every label
    is 0, 1 or 2. *)
Theorem to_categorical_range (data : list Qc) :
  exists cats,
    to_categorical (T1 data) = Some (T1 cats) /\
    length cats = length data /\
    Forall (fun c => c = 0%Z \/ c = 1%Z \/ c = 2%Z) cats.
Proof.
  eexists. split; [apply to_categorical_pointwise|].
  split; [apply length_map|].
  apply Forall_forall. intros c Hc.
  apply in_map_iff in Hc as (v & <- & _).
  destruct (Qc_gtb v hi_threshold); [auto|].
  destruct (Qc_gtb v lo_threshold); auto.
Qed.

(** X2.  The labels are monotone in the values: a larger return never gets
    a smaller category. *)
Theorem to_categorical_monotone (data : list Qc) (cats : list Z)
        (i j : nat) (v v' : Qc) (c c' : Z) :
  to_categorical (T1 data) = Some (T1 cats) ->
  nth_error data i = Some v -> nth_error data j = Some v' ->
  nth_error cats i = Some c -> nth_error cats j = Some c' ->
  (v <= v')%Qc -> (c <= c')%Z.
Proof.
  intros Hcat Hv Hv' Hc Hc' Hle.
  rewrite to_categorical_pointwise in Hcat. injection Hcat as <-.
  rewrite nth_error_map, Hv in Hc. rewrite nth_error_map, Hv' in Hc'.
  cbn in Hc, Hc'. injection Hc as <-. injection Hc' as <-.
  destruct (Qc_gtb v hi_threshold) eqn:H1.
  - apply Qc_gtb_true in H1.
    assert (H2 : Qc_gtb v' hi_threshold = true).
    { apply Qc_gtb_true. eapply Qclt_le_trans; eauto. }
    rewrite H2. lia.
  - destruct (Qc_gtb v lo_threshold) eqn:H3.
    + apply Qc_gtb_true in H3.
      assert (H4 : Qc_gtb v' lo_threshold = true).
      { apply Qc_gtb_true. eapply Qclt_le_trans; eauto. }
      rewrite H4. destruct (Qc_gtb v' hi_threshold); lia.
    + destruct (Qc_gtb v' hi_threshold); [lia|].
      destruct (Qc_gtb v' lo_threshold); lia.
Qed.

(** A return of -1/2 and one of 1/10: categories 0 and 1. *)
Lemma to_categorical_monotone_no_up : (0 <= 1)%Z.
Proof.
  apply (to_categorical_monotone truth_no_up [1; 0]%Z 1 0
           (Q2Qc (-1 # 2)) (Q2Qc (1 # 10)) 0 1);
    try reflexivity.
  unfold Qcle, Qle. cbn. lia.
Defined.

(** ** The evaluator *)

Lemma agreements_le (pred label : list Z) : agreements pred label <= length label.
Proof.
  revert label. induction pred as [|p pred IH]; intros [|l label]; cbn; try lia.
  specialize (IH label). destruct (Z.eq_dec p l); lia.
Qed.

Lemma true_positives_le_pred (pred label : list Z) :
  true_positives pred label <= positives pred.
Proof.
  unfold positives.
  revert label. induction pred as [|p pred IH]; intros [|l label]; cbn; try lia.
  specialize (IH label).
  destruct (Z.eq_dec p 2), (Z.eq_dec l 2); lia.
Qed.

Lemma true_positives_le_label (pred label : list Z) :
  true_positives pred label <= positives label.
Proof.
  unfold positives.
  revert label. induction pred as [|p pred IH]; intros [|l label]; cbn; try lia.
  specialize (IH label).
  destruct (Z.eq_dec p 2), (Z.eq_dec l 2); lia.
Qed.

Lemma agreements_same (l : list Z) : agreements l l = length l.
Proof.
  induction l as [|x l IH]; cbn; [reflexivity|].
  destruct (Z.eq_dec x x); [lia | contradiction].
Qed.

Lemma true_positives_same (l : list Z) : true_positives l l = positives l.
Proof.
  unfold positives. induction l as [|x l IH]; cbn; [reflexivity|].
  destruct (Z.eq_dec x 2); lia.
Qed.

Lemma Qc_of_Z_le (a b : Z) : (a <= b)%Z -> (Qc_of_Z a <= Qc_of_Z b)%Qc.
Proof.
  intros H. unfold Qc_of_Z, Qcle. cbn [this Q2Qc].
  rewrite !Qred_correct. now rewrite <- Zle_Qle.
Qed.

Lemma Qc_of_Z_lt (a b : Z) : (a < b)%Z -> (Qc_of_Z a < Qc_of_Z b)%Qc.
Proof.
  intros H. unfold Qc_of_Z, Qclt. cbn [this Q2Qc].
  rewrite !Qred_correct. now rewrite <- Zlt_Qlt.
Qed.

Lemma Qcdiv_unit_interval (a b : Qc) :
  (0 <= a)%Qc -> (a <= b)%Qc -> (0 < b)%Qc -> (0 <= a / b)%Qc /\ (a / b <= 1)%Qc.
Proof.
  intros Ha Hab Hb.
  assert (Hne : b <> 0%Qc) by (apply not_eq_sym, Qclt_not_eq; exact Hb).
  assert (E : (a / b * b)%Qc = a).
  { rewrite Qcmult_comm. now apply Qcmult_div_r. }
  split; apply (Qcmult_lt_0_le_reg_r _ _ b Hb); rewrite E.
  - now rewrite Qcmult_0_l.
  - now rewrite Qcmult_1_l.
Qed.

(** A quotient of two counts, the first no larger than the second, lies
    between 0 and 1 when it is defined. *)
Lemma zdiv_unit_interval (a b : nat) (q : Qc) :
  a <= b -> zdiv (Z.of_nat a) (Z.of_nat b) = Fin q -> (0 <= q)%Qc /\ (q <= 1)%Qc.
Proof.
  intros Hab Hq. unfold zdiv in Hq.
  destruct (Nat.eq_dec b 0) as [-> | Hb]; [discriminate Hq|].
  rewrite qdiv_nonzero in Hq by (rewrite Qc_of_Z_eq_zero; lia).
  injection Hq as <-.
  apply Qcdiv_unit_interval.
  - apply (Qc_of_Z_le 0). lia.
  - apply Qc_of_Z_le. lia.
  - apply (Qc_of_Z_lt 0). lia.
Qed.

(** X3.  On a batch of predictions and as many truths, whatever [stats]
    reports lies between 0 and 1: the accuracy of a batch that is not
    empty, and the precision and the recall whenever they are defined. *)
Theorem stats_unit_interval (c : nat) (rows : list (list Qc)) (truth : list Qc) :
  0 < c -> length truth = length rows ->
  exists r,
    stats (T2 c rows) (T1 truth) = Some r /\
    (rows <> [] -> exists q, accuracy r = Fin q /\ (0 <= q)%Qc /\ (q <= 1)%Qc) /\
    (forall q, precision r = Fin q -> (0 <= q)%Qc /\ (q <= 1)%Qc) /\
    (forall q, recall r = Fin q -> (0 <= q)%Qc /\ (q <= 1)%Qc).
Proof.
  intros Hc Hlen.
  pose proof (to_categorical_pointwise truth) as Hcat.
  set (labels := map _ truth) in Hcat.
  assert (Hlab : length labels = length rows).
  { unfold labels. now rewrite length_map. }
  eexists. split; [apply stats_unfold; eauto|].
  cbn [accuracy precision recall].
  split; [|split].
  - intros Hrows.
    pose proof (agreements_le (map argmax_row rows) labels) as Hle.
    rewrite Hlab in Hle.
    rewrite zdiv_nonzero by (destruct rows; [congruence | cbn; lia]).
    eexists. split; [reflexivity|].
    eapply zdiv_unit_interval; [exact Hle|].
    apply zdiv_nonzero. destruct rows; [congruence | cbn; lia].
  - intros q. apply zdiv_unit_interval, true_positives_le_pred.
  - intros q. apply zdiv_unit_interval, true_positives_le_label.
Qed.

(** The measures on two predictions and two truths lie between 0 and 1. *)
Lemma stats_unit_interval_up :
  exists r,
    stats (T2 3 dist_rows_up) (T1 truth_up) = Some r /\
    exists q, accuracy r = Fin q /\ (0 <= q)%Qc /\ (q <= 1)%Qc.
Proof.
  destruct (stats_unit_interval 3 dist_rows_up truth_up) as (r & Hr & Hacc & _);
    [lia | reflexivity |].
  exists r. split; [exact Hr|]. apply Hacc. discriminate.
Defined.

Lemma zdiv_same (n : nat) : n <> 0 -> zdiv (Z.of_nat n) (Z.of_nat n) = Fin 1%Qc.
Proof.
  intros Hn. rewrite zdiv_nonzero by lia. f_equal.
  unfold Qcdiv. apply Qcmult_inv_r. rewrite Qc_of_Z_eq_zero. lia.
Qed.

(** X4.  When every prediction is the category of its truth, the accuracy
    of a batch that is not empty is 1, precision and recall coincide, and
    both are 1 as soon as one truth is of category 2. *)
Theorem stats_perfect (c : nat) (rows : list (list Qc)) (truth : list Qc)
        (labels : list Z) :
  0 < c -> rows <> [] ->
  to_categorical (T1 truth) = Some (T1 labels) ->
  map argmax_row rows = labels ->
  exists r,
    stats (T2 c rows) (T1 truth) = Some r /\
    accuracy r = Fin 1%Qc /\
    precision r = recall r /\
    (In 2%Z labels -> precision r = Fin 1%Qc).
Proof.
  intros Hc Hrows Hcat Hsame.
  assert (Hlen : length truth = length rows).
  { rewrite to_categorical_pointwise in Hcat. injection Hcat as Hl.
    rewrite <- Hsame in Hl. apply (f_equal (@length Z)) in Hl.
    now rewrite !length_map in Hl. }
  eexists. split; [apply stats_unfold; eauto|].
  cbn [accuracy precision recall]. rewrite Hsame.
  rewrite agreements_same, true_positives_same.
  assert (Hn : length labels = length rows) by (rewrite <- Hsame; apply length_map).
  rewrite <- Hn.
  split; [apply zdiv_same; rewrite Hn; destruct rows; [congruence | discriminate]|].
  split; [reflexivity|].
  intros Hin. apply zdiv_same.
  unfold positives. apply (count_occ_In Z.eq_dec) in Hin. lia.
Qed.

(** Two predictions of category 2 against two truths of category 2. *)
Lemma stats_perfect_up :
  exists r,
    stats (T2 3 [[Q2Qc (1 # 10); Q2Qc (2 # 10); Q2Qc (7 # 10)];
                 [Q2Qc (1 # 10); Q2Qc (2 # 10); Q2Qc (7 # 10)]]) (T1 truth_up) = Some r /\
    accuracy r = Fin 1%Qc /\ precision r = recall r.
Proof.
  destruct (stats_perfect 3 [[Q2Qc (1 # 10); Q2Qc (2 # 10); Q2Qc (7 # 10)];
                             [Q2Qc (1 # 10); Q2Qc (2 # 10); Q2Qc (7 # 10)]]
              truth_up [2; 2]%Z)
    as (r & Hr & Hacc & Hpr & _);
    [lia | discriminate | reflexivity | reflexivity |].
  exists r. auto.
Defined.

Lemma bdim_mismatch (a b : nat) : a <> b -> a <> 1 -> b <> 1 -> bdim a b = None.
Proof.
  intros Hab Ha Hb. unfold bdim.
  destruct (Nat.eqb_spec a b); [contradiction|].
  destruct (Nat.eqb_spec a 1); [contradiction|].
  destruct (Nat.eqb_spec b 1); [contradiction|].
  reflexivity.
Qed.

(** X5.  Predictions and truths of different batch sizes, neither of them
    1, do not broadcast: [stats] raises. *)
Theorem stats_batch_mismatch (c : nat) (rows : list (list Qc)) (truth : list Qc) :
  length truth <> length rows -> length truth <> 1 -> length rows <> 1 ->
  stats (T2 c rows) (T1 truth) = None.
Proof.
  intros Hne Ht Hr. unfold stats. cbn [argmax_dim1].
  destruct (c =? 0); [reflexivity|]. cbn [bind].
  rewrite to_categorical_pointwise. cbn [bind bop].
  rewrite !length_map, bdim_mismatch by auto.
  reflexivity.
Qed.

(** Two predictions against three truths. *)
Lemma stats_batch_mismatch_up :
  stats (T2 3 dist_rows_up) (T1 (truth_up ++ [Q2Qc (1 # 2)])) = None.
Proof.
  apply (stats_batch_mismatch 3 dist_rows_up (truth_up ++ [Q2Qc (1 # 2)]));
    cbn; lia.
Defined.

Lemma bop_vector_single {A B C} (f : A -> B -> C) (u : list A) (y : B) :
  length u <> 1 ->
  bop f (T1 u) (T1 [y]) = Some (T1 (map (fun a => f a y) u)).
Proof.
  intros Hu. cbn [bop length]. unfold bdim, bzip. cbn [length].
  destruct (Nat.eqb_spec (length u) 1); [contradiction|].
  destruct u as [|x1 [|x2 u]]; reflexivity.
Qed.

Lemma count_equal (l : Z) (preds : list Z) :
  length (filter (fun b : bool => b) (map (fun p => Z.eqb p l) preds))
  = count_occ Z.eq_dec preds l.
Proof.
  induction preds as [|p preds IH]; cbn; [reflexivity|].
  destruct (Z.eq_dec p l) as [-> | Hne].
  - rewrite Z.eqb_refl. cbn. now rewrite IH.
  - apply Z.eqb_neq in Hne. now rewrite Hne.
Qed.

Lemma Qcdiv_1_r (x : Qc) : (x / 1)%Qc = x.
Proof.
  rewrite <- (Qcmult_1_r x) at 1. apply Qcdiv_mult_l. discriminate.
Qed.

(** X6.  A single truth against a batch of another size does not raise:
    its one label is stretched over the batch and the number of agreeing
    predictions is divided by the number of truths, 1, so that the
    accuracy [stats] reports is a count, not a fraction. *)
Theorem stats_single_truth (c : nat) (rows : list (list Qc)) (v : Qc) :
  0 < c -> length rows <> 1 ->
  exists label r,
    to_categorical (T1 [v]) = Some (T1 [label]) /\
    stats (T2 c rows) (T1 [v]) = Some r /\
    accuracy r
    = Fin (Qc_of_Z (Z.of_nat (count_occ Z.eq_dec (map argmax_row rows) label))).
Proof.
  intros Hc Hrows.
  pose proof (to_categorical_pointwise [v]) as Hcat. cbn [map] in Hcat.
  eexists. eexists. split; [exact Hcat|].
  unfold stats. cbn [argmax_dim1].
  destruct (Nat.eqb_spec c 0); [lia|]. cbn [bind].
  rewrite Hcat. cbn [bind].
  rewrite bop_vector_single by now rewrite length_map.
  cbn [bind tmap map].
  rewrite bop_vector_single by now rewrite !length_map.
  cbn [bind]. split; [reflexivity|].
  cbn [accuracy count_true numel length].
  rewrite count_equal. unfold zdiv.
  rewrite qdiv_nonzero by discriminate.
  f_equal. apply Qcdiv_1_r.
Qed.

(** Three predictions of category 2 against one truth of category 2: the
    accuracy reported is 3. *)
Lemma stats_single_truth_three :
  exists label r,
    to_categorical (T1 [Q2Qc (1 # 2)]) = Some (T1 [label]) /\
    stats (T2 3 (repeat [Q2Qc (1 # 10); Q2Qc (2 # 10); Q2Qc (7 # 10)] 3))
          (T1 [Q2Qc (1 # 2)]) = Some r /\
    accuracy r
    = Fin (Qc_of_Z (Z.of_nat
             (count_occ Z.eq_dec
                (map argmax_row (repeat [Q2Qc (1 # 10); Q2Qc (2 # 10); Q2Qc (7 # 10)] 3))
                label))).
Proof.
  apply (stats_single_truth 3 (repeat [Q2Qc (1 # 10); Q2Qc (2 # 10); Q2Qc (7 # 10)] 3)
           (Q2Qc (1 # 2))); cbn; lia.
Defined.

Example stats_single_truth_value :
  option_map accuracy
    (stats (T2 3 (repeat [Q2Qc (1 # 10); Q2Qc (2 # 10); Q2Qc (7 # 10)] 3))
           (T1 [Q2Qc (1 # 2)]))
  = Some (Fin (Q2Qc 3)).
Proof. qc_eval. Qed.

(** ** Moving averages *)

Lemma arith_mean_single (x : Qc) : arith_mean [x] = x.
Proof.
  unfold arith_mean. cbn. rewrite Qcplus_0_r. apply Qcdiv_1_r.
Qed.

Lemma window_single {A} (i : nat) (l : list A) (x : A) :
  nth_error l i = Some x -> firstn 1 (skipn i l) = [x].
Proof.
  intros H. pose proof (nth_error_skipn i l 0) as E.
  rewrite Nat.add_0_r, H in E.
  destruct (skipn i l) as [|y rest]; cbn in E; [discriminate|].
  injection E as ->. reflexivity.
Qed.

(** X8.  A moving average of window 1 is the prices themselves. *)
Theorem moving_average_window_one (time : nat) (rows : list (list Qc)) :
  Forall (fun r => length r = time) rows ->
  1 <= time ->
  moving_average (T2 time rows) 1 = Some (T2 time rows).
Proof.
  intros Hwf Ht.
  change 1%Z with (Z.of_nat 1).
  rewrite (moving_average_rows time 1 rows) by lia.
  replace (time - 1 + 1) with time by lia.
  do 2 f_equal.
  rewrite <- (map_id rows) at 2. apply map_ext_in. intros row Hrow.
  rewrite Forall_forall in Hwf. pose proof (Hwf row Hrow) as Hlen.
  apply nth_error_ext. intros i.
  destruct (Nat.lt_ge_cases i time) as [Hi | Hi].
  - rewrite ma_row_nth by lia.
    destruct (nth_error row i) as [x|] eqn:Ex.
    + now rewrite (window_single i row x Ex), arith_mean_single.
    + apply nth_error_None in Ex. lia.
  - transitivity (@None Qc); [|symmetry]; apply nth_error_None.
    + rewrite length_conv1d_row. lia.
    + lia.
Qed.

(** The prices of the two instruments, averaged over one step. *)
Lemma moving_average_window_one_two :
  moving_average prices_two 1 = Some prices_two.
Proof.
  apply (moving_average_window_one 7 rows_two); [exact rows_two_wf | lia].
Defined.

(** ** Columns and shapes *)

Lemma sequence_map {A B} (g : A -> B) (l : list (option A)) :
  sequence (map (option_map g) l) = option_map (map g) (sequence l).
Proof.
  induction l as [|[x|] l IH]; cbn; [reflexivity | | reflexivity].
  rewrite IH. now destruct (sequence l).
Qed.

Lemma select_col_tmap {A B} (g : A -> B) (i : Z) (t : tensor A) :
  select_col i (tmap g t) = option_map (tmap g) (select_col i t).
Proof.
  destruct t as [v | c rows]; cbn [tmap select_col option_map]; [reflexivity|].
  destruct (index_pos c i) as [k|]; [|reflexivity].
  rewrite map_map.
  rewrite (map_ext _ (fun r => option_map g (nth_error r k)))
    by (intros r; apply nth_error_map).
  rewrite <- (map_map (fun r => nth_error r k) (option_map g)), sequence_map.
  now destruct (sequence _).
Qed.

Lemma slice_bound_one (c : nat) : c - slice_bound c 1 = c - 1.
Proof. unfold slice_bound. cbn. lia. Qed.

Lemma slice_bound_minus_one (c : nat) : slice_bound c (-1) = c - 1.
Proof. unfold slice_bound. cbn. lia. Qed.

(** X10.  [percent_change] raises on no matrix: it returns one row per
    instrument and one column fewer than there are time steps, and none
    when there are no time steps. *)
Theorem percent_change_shape (time : nat) (rows : list (list Qc)) :
  exists out,
    percent_change (T2 time rows) = Some out /\
    shape out = [length rows; time - 1].
Proof.
  unfold percent_change. cbn [slice_cols_from slice_cols_to bind].
  rewrite slice_bound_one, slice_bound_minus_one.
  cbn [bop]. rewrite !length_map, !bdim_same. cbn [bind].
  eexists. split; [reflexivity|].
  cbn [tmap shape]. rewrite length_map.
  rewrite bzip_same_length by now rewrite !length_map.
  rewrite length_zip_with, !length_map. now rewrite Nat.min_id.
Qed.

(** ** Windows that raise *)

(** X14.  A window longer than the series of prices, or not positive,
    makes [create_indicators] raise, in either mode. *)
Theorem create_indicators_window_error (time : nat) (rows : list (list Qc))
        (w : Z) (series : bool) :
  (w <= 0 \/ Z.of_nat time < w)%Z ->
  create_indicators (T2 time rows) w series = None.
Proof.
  intros Hw.
  destruct (create_indicators (T2 time rows) w series) as [d|] eqn:E; [|reflexivity].
  apply create_indicators_defined in E. lia.
Qed.

(** Seven prices and a window of 8. *)
Lemma create_indicators_window_error_two :
  create_indicators prices_two 8 true = None.
Proof.
  apply (create_indicators_window_error 7 rows_two 8 true). right. reflexivity.
Defined.

(** ** The latest values and the series *)

(** X15.  Where [create_indicators] returns in both modes, the 'macd1',
    'macd2' and 'pct' it returns with [series=False] are the last columns of
    the ones it returns with [series=True]. *)
Theorem create_indicators_latest_of_series (prices : tensor Qc) (window : Z)
        (d d' : indicators) :
  create_indicators prices window true = Some d ->
  create_indicators prices window false = Some d' ->
  select_col (-1) (macd1 d) = Some (macd1 d') /\
  select_col (-1) (macd2 d) = Some (macd2 d') /\
  select_col (-1) (pct d) = Some (pct d').
Proof.
  intros H H'. unfold create_indicators in H, H'.
  destruct prices as [v | time rows]; [discriminate|].
  unfold latest_unless in H, H'.
  repeat match type of H with
    | bind (Some _) _ = Some _ => cbn [bind] in H
    | bind ?o _ = Some _ =>
        destruct o; cbn [bind] in H, H'; [|discriminate H]
    end.
  bind_inv H'.
  injection H as <-. injection H' as <-.
  cbn [macd1 macd2 pct].
  rewrite !select_col_tmap.
  repeat match goal with
    | E : select_col _ _ = Some _ |- _ => rewrite E; clear E
    end.
  auto.
Qed.

(** Two instruments, seven steps and a window of 6, where both modes
    return. *)
Lemma create_indicators_latest_of_series_two :
  exists d d',
    create_indicators prices_two 6 true = Some d /\
    create_indicators prices_two 6 false = Some d' /\
    select_col (-1) (macd1 d) = Some (macd1 d') /\
    select_col (-1) (macd2 d) = Some (macd2 d') /\
    select_col (-1) (pct d) = Some (pct d').
Proof.
  destruct (create_indicators prices_two 6 true) as [d|] eqn:E;
    [|vm_compute in E; discriminate E].
  destruct (create_indicators prices_two 6 false) as [d'|] eqn:E';
    [|vm_compute in E'; discriminate E'].
  exists d, d'. split; [reflexivity|]. split; [reflexivity|].
  exact (create_indicators_latest_of_series prices_two 6 d d' E E').
Defined.

Lemma sequence_nth {A B} (g : A -> list B) (k : nat) (d : B) (rows : list A) :
  (forall r, In r rows -> k < length (g r)) ->
  sequence (map (fun r => nth_error (g r) k) rows)
  = Some (map (fun r => nth k (g r) d) rows).
Proof.
  induction rows as [|r rows IH]; intros H; cbn; [reflexivity|].
  rewrite (nth_error_nth' (g r) d) by (apply H; now left).
  rewrite IH by (intros; apply H; now right). reflexivity.
Qed.

(** The last column of a matrix computed row by row. *)
Lemma select_col_last_rows {A B} (n : nat) (g : A -> list B) (d : B) (rows : list A) :
  n <> 0 -> (forall r, In r rows -> length (g r) = n) ->
  select_col (-1) (T2 n (map g rows))
  = Some (T1 (map (fun r => nth (n - 1) (g r) d) rows)).
Proof.
  intros Hn Hlen. cbn [select_col]. unfold index_pos.
  destruct (Z.ltb_spec (-1) 0); [|lia].
  destruct (Z.leb_spec 0 (Z.of_nat n + -1)); [|lia].
  replace (Z.to_nat (Z.of_nat n + -1)) with (n - 1) by lia.
  rewrite map_map, (sequence_nth g (n - 1) d); [reflexivity|].
  intros r Hr. rewrite (Hlen r Hr). lia.
Qed.

Lemma bdim_defined (a b : nat) : bdim a b <> None <-> a = b \/ a = 1 \/ b = 1.
Proof.
  unfold bdim.
  destruct (Nat.eqb_spec a b); [split; [auto | discriminate]|].
  destruct (Nat.eqb_spec a 1); [split; [auto | discriminate]|].
  destruct (Nat.eqb_spec b 1); [split; [auto | discriminate]|].
  split; [congruence | tauto].
Qed.

(** X16.  With [series=False] and a window from 6 up to the number of
    prices, [create_indicators] returns exactly when the vector of latest
    variances broadcasts against the whole series of the long moving
    average: when there are as many instruments as time steps kept, or one
    instrument, or one time step kept.  For any other batch it raises. *)
Theorem create_indicators_latest_defined (time w : nat) (rows : list (list Qc)) :
  Forall (fun r => length r = time) rows ->
  6 <= w -> w <= time ->
  create_indicators (T2 time rows) (Z.of_nat w) false <> None
  <-> (length rows = time - w + 1 \/ length rows = 1 \/ time - w + 1 = 1).
Proof.
  intros Hwf Hw6 Hw.
  destruct (window_fractions w Hw6) as (H6 & H3 & H2).
  rewrite Forall_forall in Hwf.
  unfold create_indicators.
  rewrite input_length_of_nat by assumption.
  change 2%Z with (Z.of_nat 2). change 6%Z with (Z.of_nat 6).
  change 3%Z with (Z.of_nat 3).
  rewrite !quot_of_nat by discriminate.
  unfold latest_unless.
  rewrite !moving_average_rows by lia. cbn [bind].
  rewrite !moving_average_sliced by lia. cbn [bind].
  rewrite !spread_rows by lia. cbn [bind].
  rewrite !ratio_rows by lia. cbn [bind].
  rewrite !(select_col_last_rows _ _ Undef) by
    (try lia; intros r Hr;
     rewrite !length_zip_with, !length_ma_trail by lia; lia).
  cbn [bind].
  rewrite percent_change_rows by (try apply Forall_forall; assumption || lia).
  cbn [bind].
  rewrite pct_sliced by lia. cbn [bind].
  rewrite (select_col_last_rows _ _ Undef).
  2: lia.
  2:{ intros r Hr. rewrite length_skipn, length_map, length_zip_with.
      rewrite length_skipn, length_firstn, (Hwf r Hr). lia. }
  cbn [bind].
  rewrite unfold_rows by lia. cbn [bind].
  unfold var_dim1. cbn [dim2 items]. rewrite map_map.
  rewrite (select_col_last_rows _ _ Undef)
    by (try lia; intros r Hr; apply length_var_block).
  cbn [bind bop]. rewrite !length_map.
  rewrite <- bdim_defined.
  assert (E1 : bdim 1 (length rows) = Some (length rows)).
  { unfold bdim. destruct (Nat.eqb_spec 1 (length rows)) as [<- | _]; reflexivity. }
  rewrite E1.
  destruct (bdim (length rows) (time - w + 1)); cbn [bind]; split; congruence.
Qed.

(** Two instruments, a window of 6 and seven steps, of which two are
    kept: the call returns. *)
Lemma create_indicators_latest_defined_two :
  create_indicators prices_two 6 false <> None.
Proof.
  apply (create_indicators_latest_defined 7 6 rows_two);
    [exact rows_two_wf | lia | lia | left; reflexivity].
Defined.

(** ** Networks built by [create_net] *)

Lemma flat_map_shift {A} (f : nat -> list A) (m : nat) :
  flat_map f (seq 1 m) = flat_map (fun i => f (S i)) (seq 0 m).
Proof.
  rewrite <- seq_shift. induction (seq 0 m) as [|i l IH]; cbn; [reflexivity|].
  now rewrite IH.
Qed.

(** The first linear layer, its normalisation and its activation, then the
    network of the remaining sizes. *)
Lemma create_net_cons (p : nat -> layer_params) (s0 s1 : nat) (rest : list nat)
      (omit : bool) :
  create_net p (s0 :: s1 :: rest) omit
  = [Linear s0 s1 (weight (p 0)) (bias (p 0)); BatchNorm1d s1 (norm (p 0))]
    ++ (if (0 <? length rest) || negb omit then [ReLU] else [])
    ++ create_net (fun i => p (S i)) (s1 :: rest) omit.
Proof.
  unfold create_net.
  replace (length (s0 :: s1 :: rest) - 1) with (S (length rest)) by (cbn; lia).
  replace (length (s1 :: rest) - 1) with (length rest) by (cbn; lia).
  cbn [seq flat_map]. rewrite flat_map_shift.
  cbn [nth Nat.add length].
  replace (S (S (length rest)) - 2) with (length rest) by lia.
  rewrite <- app_assoc. do 2 f_equal.
  apply flat_map_ext. intros i.
  replace (S i <? length rest) with (i <? S (length rest) - 2); [reflexivity|].
  destruct (Nat.ltb_spec (S i) (length rest)), (Nat.ltb_spec i (S (length rest) - 2));
    try reflexivity; lia.
Qed.

Lemma create_net_single (p : nat -> layer_params) (s0 : nat) (omit : bool) :
  create_net p [s0] omit = [].
Proof. reflexivity. Qed.

(** X17.  [omit_last_activation] drops the last activation and nothing
    else: for two sizes or more, the network without it is the network
    with it followed by a ReLU. *)
Theorem create_net_last_activation (p : nat -> layer_params) (layer_sizes : list nat) :
  2 <= length layer_sizes ->
  create_net p layer_sizes false = create_net p layer_sizes true ++ [ReLU].
Proof.
  destruct layer_sizes as [|s0 rest]; [cbn; lia|]. intros Hlen.
  revert p s0 Hlen.
  induction rest as [|s1 rest IH]; intros p s0 Hlen; [cbn in Hlen; lia|].
  rewrite !create_net_cons.
  destruct rest as [|s2 rest].
  - rewrite !create_net_single. reflexivity.
  - rewrite (IH (fun i => p (S i)) s1) by (cbn; lia).
    cbn [length Nat.ltb Nat.leb orb]. now rewrite <- !app_assoc.
Qed.

(** The decoder sizes with and without the last activation. *)
Lemma create_net_last_activation_foutput :
  create_net (foutput_init theta_ones) [16; 16; 8; 3] false
  = create_net (foutput_init theta_ones) [16; 16; 8; 3] true ++ [ReLU].
Proof.
  apply (create_net_last_activation (foutput_init theta_ones) [16; 16; 8; 3]).
  cbn. lia.
Defined.

(** X18.  A network built by [create_net] takes a batch whose width is the
    first layer size to a batch of the same size whose width is the last
    layer size; in training mode it wants a batch that is not of one. *)
Theorem create_net_shape (tr omit : bool) (p : nat -> layer_params) (s0 : nat)
        (rest : list nat) (n : nat) (x : tensor R) :
  shape x = [n; s0] -> wf x -> (tr = true -> n <> 1) ->
  exists y,
    sequential tr (create_net p (s0 :: rest) omit) x = Some y /\
    shape y = [n; last (s0 :: rest) 0] /\ wf y.
Proof.
  revert p s0 x.
  induction rest as [|s1 rest IH]; intros p s0 x Hx Hwf Hn.
  - exists x. rewrite create_net_single. cbn. auto.
  - rewrite create_net_cons.
    destruct (sequential_block tr ((0 <? length rest) || negb omit) (p 0) s0 s1 n
                (create_net (fun i => p (S i)) (s1 :: rest) omit) x Hx Hn)
      as (y1 & S1 & W1 & E1).
    rewrite E1.
    destruct (IH (fun i => p (S i)) s1 y1 S1 W1 Hn) as (y & Ey & Sy & Wy).
    exists y. split; [exact Ey|]. split; [|exact Wy].
    rewrite Sy. reflexivity.
Qed.

(** A batch of two rows of four through the encoder sizes. *)
Lemma create_net_shape_finput :
  exists y,
    sequential true (create_net (finput_init theta_ones) [4; 8; 16; 16] false)
               (T2 4 (repeat [1; 2; 3; 4]%R 2)) = Some y /\
    shape y = [2; 16] /\ wf y.
Proof.
  apply (create_net_shape true false (finput_init theta_ones) 4 [8; 16; 16] 2
           (T2 4 (repeat [1; 2; 3; 4]%R 2))).
  - reflexivity.
  - repeat constructor.
  - intros _. discriminate.
Defined.

(** Every entry of a tensor. *)
Lemma relu_entries (x : tensor R) (r : list R) (v : R) :
  match tmap (Rmax 0) x with
  | T1 u => In v u
  | T2 _ rows => In r rows /\ In v r
  end -> (0 <= v)%R.
Proof.
  destruct x as [u | c rows]; cbn [tmap].
  - intros Hv. apply in_map_iff in Hv as (a & <- & _). apply Rmax_l.
  - intros [Hr Hv]. apply in_map_iff in Hr as (r0 & <- & _).
    apply in_map_iff in Hv as (a & <- & _). apply Rmax_l.
Qed.

(** X19.  A network built with its last activation, as the encoder is,
    returns no negative entry. *)
Theorem create_net_nonnegative (tr : bool) (p : nat -> layer_params)
        (layer_sizes : list nat) (x : tensor R) (c : nat) (rows : list (list R)) :
  2 <= length layer_sizes ->
  sequential tr (create_net p layer_sizes false) x = Some (T2 c rows) ->
  Forall (Forall (fun v => (0 <= v)%R)) rows.
Proof.
  intros Hlen H.
  rewrite create_net_last_activation, sequential_app in H by assumption.
  destruct (sequential tr (create_net p layer_sizes true) x) as [z|];
    cbn [bind sequential apply_layer] in H; [|discriminate].
  injection H as H.
  apply Forall_forall. intros r Hr. apply Forall_forall. intros v Hv.
  apply (relu_entries z r v). rewrite H. auto.
Qed.

(** The encoder on a batch of two rows of four. *)
Lemma create_net_nonnegative_finput :
  exists rows,
    sequential true (create_net (finput_init theta_ones) [4; 8; 16; 16] false)
               (T2 4 (repeat [1; 2; 3; 4]%R 2)) = Some (T2 16 rows) /\
    Forall (Forall (fun v => (0 <= v)%R)) rows.
Proof.
  destruct (sequential_finput true (finput_init theta_ones) 4 2
              (T2 4 (repeat [1; 2; 3; 4]%R 2)) eq_refl)
    as (y & Ey & Sy & _); [intros _; discriminate|].
  apply shape_matrix in Sy as (rows & -> & _).
  exists rows. split; [exact Ey|].
  apply (create_net_nonnegative true (finput_init theta_ones) [4; 8; 16; 16]
           (T2 4 (repeat [1; 2; 3; 4]%R 2)) 16 rows); [cbn; lia | exact Ey].
Defined.

(** ** Where [forward] raises *)

(** A network of one linear layer or more accepts only matrices of its
    first width and, in training mode, only batches that are not of one. *)
Lemma sequential_create_net_accepts (tr omit : bool) (p : nat -> layer_params)
      (s0 s1 : nat) (rest : list nat) (x y : tensor R) :
  sequential tr (create_net p (s0 :: s1 :: rest) omit) x = Some y ->
  exists rows, x = T2 s0 rows /\ (tr = true -> length rows <> 1).
Proof.
  rewrite create_net_cons. cbn [app sequential]. intros H.
  destruct x as [v | c rows]; cbn [apply_layer] in H.
  - destruct (length v =? s0); cbn [bind apply_layer] in H; discriminate.
  - destruct (Nat.eqb_spec c s0) as [-> | _]; cbn [bind apply_layer] in H;
      [|discriminate].
    rewrite Nat.eqb_refl, length_map in H. cbn [negb] in H.
    exists rows. split; [reflexivity|].
    intros -> E. rewrite E in H. cbn in H. discriminate.
Qed.

Lemma gru_forward_keeps_shape (g : gru_cell) (x hidden h : tensor R) :
  gru_forward g x hidden = Some h -> shape h = shape hidden.
Proof.
  destruct x as [u | cx xs], hidden as [v | ch hs]; cbn [gru_forward]; try discriminate.
  destruct (cx =? input_size g); cbn [andb]; [|discriminate].
  destruct (ch =? hidden_size g); cbn [andb]; [|discriminate].
  destruct (Nat.eqb_spec (length xs) (length hs)) as [E | _]; [|discriminate].
  intros H. injection H as <-. cbn.
  now rewrite length_zip_with, E, Nat.min_id.
Qed.

Lemma gru_loop_keeps_shape (g : gru_cell) (x : tensor3 R) (steps : list nat)
      (hidden h : tensor R) :
  gru_loop g x steps hidden = Some h -> shape h = shape hidden.
Proof.
  revert hidden. induction steps as [|t steps IH]; intros hidden H; cbn [gru_loop] in H.
  - now injection H as <-.
  - bind_inv H. rewrite (IH _ H). eapply gru_forward_keeps_shape; eauto.
Qed.

(** X20.  [forward] returns only on the inputs it accepts: on a tensor of
    another number of dimensions than the mode wants, on another number
    of channels than the network was built for, and in training mode on
    a batch of one, it raises. *)
Theorem forward_accepts (theta : parameters) (input_channels : nat)
        (rec mode : bool) (x : input) (out : tensor R) :
  forward (train (init theta input_channels rec) mode) x = Some out ->
  valid_input (train (init theta input_channels rec) mode) input_channels x.
Proof.
  intros H. unfold forward in H.
  cbn [recurrent training finput foutput gru finput_layer_sizes train init last] in H.
  destruct rec.
  - destruct x as [x | x]; [|discriminate].
    bind_inv H.
    cbn [valid_input recurrent training train init].
    split; [reflexivity|].
    match goal with
    | E : reshape2 _ _ _ = Some ?f |- _ =>
        unfold reshape2 in E;
        destruct (_ =? _) in E; [injection E as <-|discriminate E]
    end.
    match goal with
    | E : sequential _ (create_net (finput_init theta) _ _) _ = Some _ |- _ =>
        apply sequential_create_net_accepts in E as (rows & Erows & _);
        injection Erows as Ec _
    end.
    split; [exact Ec|].
    intros Hmode Hbatch.
    match goal with
    | E : gru_loop _ _ _ _ = Some ?h |- _ =>
        apply gru_loop_keeps_shape in E; cbn [shape] in E;
        rewrite repeat_length in E
    end.
    match goal with
    | E : sequential _ (create_net (foutput_init theta) _ _) _ = Some _ |- _ =>
        apply sequential_create_net_accepts in E as (rows' & -> & Hone)
    end.
    match goal with
    | E : shape (T2 _ _) = _ |- _ => cbn [shape] in E; injection E as E
    end.
    apply (Hone Hmode). congruence.
  - destruct x as [x | [v | c rows]]; try discriminate.
    bind_inv H.
    cbn [valid_input recurrent training train init].
    split; [reflexivity|].
    match goal with
    | E : sequential _ (create_net (finput_init theta) _ _) _ = Some _ |- _ =>
        apply sequential_create_net_accepts in E as (rows' & Erows & Hone);
        injection Erows as -> <-
    end.
    auto.
Qed.

(** ** Evaluation mode, sample by sample *)

Lemma net_row_app (net1 net2 : list layer) (r : list R) :
  net_row (net1 ++ net2) r = net_row net2 (net_row net1 r).
Proof. unfold net_row. apply fold_left_app. Qed.

(** In evaluation mode a linear layer, its normalisation and possibly its
    activation work row by row. *)
Lemma sequential_eval_block (relu : bool) (p : layer_params) (i o : nat)
      (rest : list layer) (rows : list (list R)) :
  let block := [Linear i o (weight p) (bias p); BatchNorm1d o (norm p)]
               ++ (if relu then [ReLU] else []) in
  sequential false (block ++ rest) (T2 i rows)
  = sequential false rest (T2 o (map (net_row block) rows)).
Proof.
  cbn zeta. rewrite <- app_assoc. cbn [app sequential apply_layer].
  rewrite Nat.eqb_refl. cbn [bind apply_layer].
  rewrite Nat.eqb_refl. cbn [negb andb bind].
  rewrite map_map.
  destruct relu; cbn [app sequential apply_layer bind tmap]; rewrite ?map_map;
    reflexivity.
Qed.

(** In evaluation mode a network built by [create_net] works row by row. *)
Lemma sequential_eval_rows (omit : bool) (p : nat -> layer_params) (s0 : nat)
      (rest : list nat) (rows : list (list R)) :
  sequential false (create_net p (s0 :: rest) omit) (T2 s0 rows)
  = Some (T2 (last (s0 :: rest) 0)
            (map (net_row (create_net p (s0 :: rest) omit)) rows)).
Proof.
  revert p s0 rows. induction rest as [|s1 rest IH]; intros p s0 rows.
  - rewrite create_net_single. cbn [sequential last].
    rewrite (map_ext (net_row []) (fun r => r)) by (intros; reflexivity).
    now rewrite map_id.
  - rewrite create_net_cons, app_assoc.
    rewrite (sequential_eval_block _ (p 0) s0 s1).
    rewrite IH, map_map.
    change (last (s0 :: s1 :: rest) 0) with (last (s1 :: rest) 0).
    do 2 f_equal.
    apply map_ext. intros r. symmetry. apply net_row_app.
Qed.

(** In evaluation mode a network that is not recurrent returns, on any
    batch of the right number of channels, the prediction of each row. *)
Lemma forward_eval_rows (theta : parameters) (input_channels : nat)
      (rows : list (list R)) :
  forward (train (init theta input_channels false) false) (X2 (T2 input_channels rows))
  = Some (T2 3 (map (predict_row (init theta input_channels false)) rows)).
Proof.
  unfold forward.
  cbn [recurrent training finput foutput gru finput_layer_sizes train init].
  rewrite sequential_eval_rows. cbn [bind last].
  rewrite sequential_eval_rows. cbn [bind last softmax_dim1].
  rewrite !map_map. reflexivity.
Qed.

(** *** Reshaping *)

Lemma map_nth_seq {A} (l : list A) (d : A) :
  map (fun k => nth k l d) (seq 0 (length l)) = l.
Proof.
  induction l as [|a l IH]; cbn [length seq map]; [reflexivity|].
  cbn [nth]. f_equal. rewrite <- seq_shift, map_map. exact IH.
Qed.

Lemma length_concat_uniform {A} (t : nat) (ls : list (list A)) :
  Forall (fun l => length l = t) ls -> length (concat ls) = length ls * t.
Proof.
  induction 1 as [|l ls Hl _ IH]; cbn; [reflexivity|].
  rewrite length_app, IH, Hl. reflexivity.
Qed.

(** Chunk [k] of the rows laid end to end is row [k]. *)
Lemma chunk_nth {A} (c k : nat) (rows : list (list A)) :
  Forall (fun r => length r = c) rows -> k < length rows ->
  firstn c (skipn (k * c) (concat rows)) = nth k rows [].
Proof.
  intros Hwf. revert k.
  induction Hwf as [|r rows Hr _ IH]; intros k Hk; cbn in Hk; [lia|].
  cbn [concat]. destruct k as [|k].
  - cbn [Nat.mul skipn nth].
    rewrite firstn_app, Hr, Nat.sub_diag, <- Hr, firstn_all. cbn.
    apply app_nil_r.
  - cbn [nth]. rewrite skipn_app, skipn_all2 by (rewrite Hr; cbn; lia).
    rewrite Hr. cbn [app].
    replace (S k * c - c) with (k * c) by (cbn; lia).
    apply IH. lia.
Qed.

Lemma chunks_all {A} (c : nat) (rows : list (list A)) :
  Forall (fun r => length r = c) rows ->
  map (fun k => firstn c (skipn (k * c) (concat rows))) (seq 0 (length rows)) = rows.
Proof.
  intros Hwf.
  transitivity (map (fun k => nth k rows []) (seq 0 (length rows)));
    [|apply map_nth_seq].
  apply map_ext_in. intros k Hk. apply in_seq in Hk.
  apply chunk_nth; [assumption | lia].
Qed.

(** Element [bi * t + ti] of lists of length [t] laid end to end is element
    [ti] of list [bi]. *)
Lemma nth_concat_uniform {A} (t bi ti : nat) (ls : list (list A)) (d : A) :
  Forall (fun l => length l = t) ls -> bi < length ls -> ti < t ->
  nth (bi * t + ti) (concat ls) d = nth ti (nth bi ls []) d.
Proof.
  intros Hwf. revert bi.
  induction Hwf as [|l ls Hl _ IH]; intros bi Hbi Hti; cbn in Hbi; [lia|].
  cbn [concat]. destruct bi as [|bi].
  - cbn [Nat.mul Nat.add nth]. apply app_nth1. lia.
  - cbn [nth]. rewrite app_nth2 by (rewrite Hl; cbn; lia).
    rewrite Hl. replace (S bi * t + ti - t) with (bi * t + ti) by (cbn; lia).
    apply IH; lia.
Qed.

(** Regrouping, by position, the steps of uniform sequences laid end to
    end gives back the sequences. *)
Lemma regroup_all {A} (t c : nat) (its : list (list (list A))) :
  Forall (fun item => length item = t /\ Forall (fun r => length r = c) item) its ->
  map (fun bi => map (fun ti => firstn c (skipn ((bi * t + ti) * c)
                                            (concat (concat its))))
                     (seq 0 t))
      (seq 0 (length its))
  = its.
Proof.
  intros Hwf.
  assert (Ht : Forall (fun item : list (list A) => length item = t) its).
  { eapply Forall_impl; [|exact Hwf]. now intros item [? _]. }
  assert (Hc : Forall (fun r : list A => length r = c) (concat its)).
  { apply Forall_concat. eapply Forall_impl; [|exact Hwf]. now intros item [_ ?]. }
  transitivity (map (fun bi => nth bi its []) (seq 0 (length its)));
    [|apply map_nth_seq].
  apply map_ext_in. intros bi Hbi. apply in_seq in Hbi.
  assert (Hitem : length (nth bi its []) = t).
  { rewrite Forall_forall in Ht. apply Ht, nth_In. lia. }
  transitivity (map (fun ti => nth ti (nth bi its []) []) (seq 0 t));
    [|rewrite <- Hitem; apply map_nth_seq].
  apply map_ext_in. intros ti Hti. apply in_seq in Hti.
  rewrite chunk_nth; [|assumption|].
  - apply nth_concat_uniform; [assumption | lia | lia].
  - rewrite (length_concat_uniform t) by assumption. nia.
Qed.

(** *** The recurrent network *)

(** The loop over the time steps folds the cell over each sequence on its
    own. *)
Lemma gru_loop_rows (g : gru_cell) (t : nat) (its : list (list (list R)))
      (steps : list nat) :
  Forall (fun s => s < t) steps ->
  forall H : list (list R) -> list R,
    gru_loop g (T3 t (input_size g) its) steps (T2 (hidden_size g) (map H its))
    = Some (T2 (hidden_size g) (map (fun item => gru_fold g steps item (H item)) its)).
Proof.
  induction 1 as [|s steps Hs _ IH]; intros H; cbn [gru_loop].
  - reflexivity.
  - unfold select_step. cbn [dim1 dim2 items].
    destruct (Nat.ltb_spec s t); [|lia].
    cbn [bind gru_forward].
    rewrite !Nat.eqb_refl, !length_map, Nat.eqb_refl. cbn [andb bind].
    rewrite zip_with_map.
    apply (IH (fun item => gru_row g (nth s item []) (H item))).
Qed.

Lemma length_net_row_finput (p : nat -> layer_params) (ic : nat) (r : list R) :
  length (net_row (create_net p [ic; 8; 16; 16] false) r) = 16.
Proof.
  change (create_net p [ic; 8; 16; 16] false)
    with ([Linear ic 8 (weight (p 0)) (bias (p 0)); BatchNorm1d 8 (norm (p 0)); ReLU;
           Linear 8 16 (weight (p 1)) (bias (p 1)); BatchNorm1d 16 (norm (p 1)); ReLU;
           Linear 16 16 (weight (p 2)) (bias (p 2))]
          ++ [BatchNorm1d 16 (norm (p 2)); ReLU]).
  rewrite net_row_app.
  unfold net_row at 1. cbn [fold_left layer_row].
  unfold batch_norm_row. now rewrite !length_map, length_seq.
Qed.

(** In evaluation mode the recurrent network returns, on a batch of
    sequences of the right number of channels, the prediction of each
    sequence: the decoder on the hidden state that the cell reaches from
    zeros over the encoded steps of that sequence. *)
Lemma forward_eval_sequences (theta : parameters) (input_channels : nat)
      (x : tensor3 R) :
  wf3 x -> dim2 x = input_channels ->
  forward (train (init theta input_channels true) false) (X3 x)
  = Some (T2 3 (map (predict_sequence (init theta input_channels true)) (items x))).
Proof.
  intros Hwf Hc. destruct x as [t c its]. cbn [dim1 dim2 items] in *. subst c.
  unfold wf3 in Hwf. cbn [dim1 dim2 items] in Hwf.
  assert (Ht : Forall (fun item : list (list R) => length item = t) its).
  { eapply Forall_impl; [|exact Hwf]. now intros item [? _]. }
  assert (Hrows : Forall (fun r : list R => length r = input_channels) (concat its)).
  { apply Forall_concat. eapply Forall_impl; [|exact Hwf]. now intros item [_ ?]. }
  pose proof (length_concat_uniform t its Ht) as Hlen.
  unfold forward.
  cbn [recurrent training finput foutput gru finput_layer_sizes train init last
       dim1 dim2 items].
  (* x.reshape(batch * timesteps, channels) *)
  unfold reshape2. cbn [dim1 dim2 items]. rewrite Nat.eqb_refl.
  rewrite <- Hlen, chunks_all by assumption. cbn [bind].
  (* the encoder *)
  rewrite sequential_eval_rows. cbn [bind last].
  set (enc := net_row (create_net (finput_init theta) [input_channels; 8; 16; 16] false)).
  (* reshape(batch, timesteps, width) *)
  cbn [reshape3]. rewrite length_map, Hlen, Nat.eqb_refl. cbn [bind].
  rewrite concat_map.
  rewrite <- (length_map (map enc) its) at 1.
  rewrite (regroup_all t 16 (map (map enc) its)).
  2:{ apply Forall_forall. intros item' Hin.
      apply in_map_iff in Hin as (item & <- & Hitem).
      rewrite Forall_forall in Ht. rewrite length_map. split; [now apply Ht|].
      apply Forall_forall. intros r' Hr'.
      apply in_map_iff in Hr' as (r & <- & _). apply length_net_row_finput. }
  (* the loop *)
  rewrite <- (length_map (map enc) its), repeat_as_map.
  rewrite (gru_loop_rows
             (GRUCell 16 16 (gru_weight_ih theta) (gru_weight_hh theta)
                      (gru_bias_ih theta) (gru_bias_hh theta))
             t (map (map enc) its) (seq 0 t))
    by (apply Forall_forall; intros s Hs; apply in_seq in Hs; lia).
  cbn [bind hidden_size].
  (* the decoder *)
  rewrite sequential_eval_rows. cbn [bind last softmax_dim1].
  rewrite !map_map. do 2 f_equal.
  apply map_ext_in. intros item Hitem.
  unfold predict_sequence.
  cbn [gru finput foutput finput_layer_sizes init last].
  rewrite Forall_forall in Ht. rewrite (Ht item Hitem). reflexivity.
Qed.

(** X21.  In evaluation mode a network that is not recurrent predicts
    sample by sample: the row [forward] returns for a sample of a batch is
    the row it returns for that sample alone, whatever else is in the
    batch. *)
Theorem forward_eval_batch_independent (theta : parameters) (input_channels : nat)
        (rows : list (list R)) (b : nat) (r : list R) :
  nth_error rows b = Some r ->
  exists out p,
    forward (train (init theta input_channels false) false)
            (X2 (T2 input_channels rows)) = Some (T2 3 out) /\
    nth_error out b = Some p /\
    forward (train (init theta input_channels false) false)
            (X2 (T2 input_channels [r])) = Some (T2 3 [p]).
Proof.
  intros Hr. eexists. eexists.
  split; [apply forward_eval_rows|].
  split; [rewrite nth_error_map, Hr; reflexivity|].
  apply forward_eval_rows.
Qed.

(** The second of two samples. *)
Lemma forward_eval_batch_independent_two :
  exists out p,
    forward (train (init theta_ones 4 false) false)
            (X2 (T2 4 [[1; 2; 3; 4]; [4; 3; 2; 1]]%R)) = Some (T2 3 out) /\
    nth_error out 1 = Some p /\
    forward (train (init theta_ones 4 false) false)
            (X2 (T2 4 [[4; 3; 2; 1]]%R)) = Some (T2 3 [p]).
Proof.
  apply (forward_eval_batch_independent theta_ones 4
           [[1; 2; 3; 4]; [4; 3; 2; 1]]%R 1 [4; 3; 2; 1]%R).
  reflexivity.
Defined.

(** X22.  In evaluation mode the recurrent network predicts sequence by
    sequence: the row [forward] returns for a sequence of a batch is the
    row it returns for that sequence alone, whatever else is in the
    batch. *)
Theorem forward_eval_sequence_independent (theta : parameters) (input_channels : nat)
        (x : tensor3 R) (b : nat) (item : list (list R)) :
  wf3 x -> dim2 x = input_channels ->
  nth_error (items x) b = Some item ->
  exists out p,
    forward (train (init theta input_channels true) false) (X3 x) = Some (T2 3 out) /\
    nth_error out b = Some p /\
    forward (train (init theta input_channels true) false)
            (X3 (T3 (dim1 x) (dim2 x) [item])) = Some (T2 3 [p]).
Proof.
  intros Hwf Hc Hitem. eexists. eexists.
  split; [apply forward_eval_sequences; assumption|].
  split; [rewrite nth_error_map, Hitem; reflexivity|].
  rewrite forward_eval_sequences; [reflexivity | | exact Hc].
  unfold wf3 in *. cbn [dim1 dim2 items].
  rewrite Forall_forall in Hwf. constructor; [|constructor].
  apply Hwf. eapply nth_error_In; eauto.
Qed.

Lemma features_two_wf : wf3 features_two.
Proof. repeat constructor. Defined.

(** The second of two sequences of three steps. *)
Lemma forward_eval_sequence_independent_two :
  exists out p,
    forward (train (init theta_ones 4 true) false) (X3 features_two) = Some (T2 3 out) /\
    nth_error out 1 = Some p /\
    forward (train (init theta_ones 4 true) false)
            (X3 (T3 3 4 [repeat [1; 2; 3; 4]%R 3])) = Some (T2 3 [p]).
Proof.
  apply (forward_eval_sequence_independent theta_ones 4 features_two 1
           (repeat [1; 2; 3; 4]%R 3));
    [exact features_two_wf | reflexivity | reflexivity].
Defined.

(** One sample in evaluation mode. *)
Lemma forward_accepts_one :
  valid_input (train (init theta_ones 4 false) false) 4 (X2 (T2 4 [[1; 2; 3; 4]%R])).
Proof.
  apply (forward_accepts theta_ones 4 false false (X2 (T2 4 [[1; 2; 3; 4]%R]))
           (T2 3 (map (predict_row (init theta_ones 4 false)) [[1; 2; 3; 4]%R]))).
  apply forward_eval_rows.
Defined.

(** ** The hidden state *)









(** ** The loss *)

Lemma exp_le (x y : R) : (x <= y)%R -> (exp x <= exp y)%R.
Proof.
  intros [Hlt | ->]; [left; now apply exp_increasing | right; reflexivity].
Qed.

Lemma ln_le (a b : R) : (0 < a)%R -> (a <= b)%R -> (ln a <= ln b)%R.
Proof.
  intros Ha [Hlt | ->]; [left; now apply ln_increasing | right; reflexivity].
Qed.

Lemma Rsum_nonneg_exp (l : list R) : (0 <= Rsum (map exp l))%R.
Proof.
  induction l as [|x l IH]; cbn [map]; [cbn; lra|].
  rewrite Rsum_cons. pose proof (exp_pos x). lra.
Qed.



Lemma Rsum_lower (lo : R) (l : list R) :
  Forall (fun a => (lo <= a)%R) l -> (INR (length l) * lo <= Rsum l)%R.
Proof.
  induction 1 as [|x l Hx _ IH].
  - cbn. lra.
  - rewrite Rsum_cons. cbn [length]. rewrite S_INR. lra.
Qed.

Lemma Rsum_upper (hi : R) (l : list R) :
  Forall (fun a => (a <= hi)%R) l -> (Rsum l <= INR (length l) * hi)%R.
Proof.
  induction 1 as [|x l Hx _ IH].
  - cbn. lra.
  - rewrite Rsum_cons. cbn [length]. rewrite S_INR. lra.
Qed.

(** The mean of values within bounds is within the bounds. *)
Lemma Rmean_bounds (lo hi : R) (l : list R) :
  l <> [] -> Forall (fun a => (lo <= a <= hi)%R) l ->
  (lo <= Rsum l / INR (length l) <= hi)%R.
Proof.
  intros Hl Hb.
  assert (Hn : (0 < INR (length l))%R).
  { apply lt_0_INR. destruct l; [congruence | cbn; lia]. }
  pose proof (Rsum_lower lo l) as H1. pose proof (Rsum_upper hi l) as H2.
  split.
  - apply (Rmult_le_reg_r (INR (length l))); [exact Hn|].
    unfold Rdiv. rewrite Rmult_assoc, Rinv_l by lra.
    rewrite Rmult_1_r, Rmult_comm. apply H1.
    eapply Forall_impl; [|exact Hb]. intros a Ha. cbv beta in Ha. lra.
  - apply (Rmult_le_reg_r (INR (length l))); [exact Hn|].
    unfold Rdiv. rewrite Rmult_assoc, Rinv_l by lra.
    rewrite Rmult_1_r, (Rmult_comm hi). apply H2.
    eapply Forall_impl; [|exact Hb]. intros a Ha. cbv beta in Ha. lra.
Qed.

Lemma Forall_zip_with {A B C} (P : C -> Prop) (f : A -> B -> C)
      (l1 : list A) (l2 : list B) :
  (forall x y, In x l1 -> In y l2 -> P (f x y)) -> Forall P (zip_with f l1 l2).
Proof.
  revert l2. induction l1 as [|x l1 IH]; intros [|y l2] H; cbn; constructor.
  - apply H; now left.
  - apply IH. intros x' y' Hx Hy. apply H; now right.
Qed.

Lemma zip_with_not_nil {A B C} (f : A -> B -> C) (l1 : list A) (l2 : list B) :
  l1 <> [] -> length l1 = length l2 -> zip_with f l1 l2 <> [].
Proof.
  destruct l1, l2; cbn; congruence.
Qed.

(** What [loss_fn] computes on a batch of rows of scores over three
    classes or more and as many truths. *)
Lemma loss_fn_unfold (c : nat) (rows : list (list R)) (truth : list Qc) :
  3 <= c -> length truth = length rows -> rows <> [] ->
  exists cats,
    to_categorical (T1 truth) = Some (T1 cats) /\
    length cats = length rows /\
    Forall (fun k => (0 <= k <= 2)%Z) cats /\
    loss_fn (T2 c rows) (T1 truth)
    = Some (Loss (Rsum (zip_with (fun row k => (- log_softmax_at row (Z.to_nat k))%R)
                                 rows cats)
                  / INR (length rows))%R).
Proof.
  intros Hc Hlen Hrows.
  pose proof (to_categorical_pointwise truth) as Hcat.
  set (cats := map _ truth) in Hcat.
  assert (Hrange : Forall (fun k => (0 <= k <= 2)%Z) cats).
  { apply Forall_forall. intros k Hk. apply in_map_iff in Hk as (v & <- & _).
    destruct (Qc_gtb v hi_threshold); [lia|].
    destruct (Qc_gtb v lo_threshold); lia. }
  assert (Hl : length cats = length rows) by (unfold cats; now rewrite length_map).
  exists cats. split; [exact Hcat|]. split; [exact Hl|]. split; [exact Hrange|].
  unfold loss_fn. rewrite Hcat. cbn [bind cross_entropy].
  rewrite Hl, Nat.eqb_refl. cbn [negb].
  assert (Hall : forallb (fun k => (0 <=? k)%Z && (k <? Z.of_nat c)%Z) cats = true).
  { apply forallb_forall. intros k Hk. rewrite Forall_forall in Hrange.
    specialize (Hrange k Hk). apply andb_true_iff. split.
    - apply Z.leb_le. lia.
    - apply Z.ltb_lt. lia. }
  rewrite Hall. cbn [negb].
  destruct (Nat.eqb_spec (length rows) 0) as [E | _].
  - destruct rows; [congruence | discriminate].
  - reflexivity.
Qed.



(** On a row of three probabilities, minus the log of the softmax at any
    class lies between [ln (1 + 2/e)] and [1 + ln 3]. *)
Lemma log_softmax_of_probabilities (row : list R) (k : nat) :
  length row = 3 -> Forall (fun p => (0 <= p <= 1)%R) row -> k < 3 ->
  (ln (1 + 2 / exp 1) <= - log_softmax_at row k <= 1 + ln 3)%R.
Proof.
  intros Hlen Hp Hk.
  destruct row as [|a [|b [|c [|d row]]]]; try discriminate Hlen.
  inversion Hp as [|? ? Ha Hp1]; subst. inversion Hp1 as [|? ? Hb Hp2]; subst.
  inversion Hp2 as [|? ? Hc _]; subst.
  assert (Hexp : forall p, (0 <= p <= 1)%R -> (1 <= exp p <= exp 1)%R).
  { intros p [H0 H1]. rewrite <- exp_0 at 1. split; now apply exp_le. }
  pose proof (Hexp a Ha) as Ea. pose proof (Hexp b Hb) as Eb.
  pose proof (Hexp c Hc) as Ec.
  pose proof (exp_pos 1) as He.
  unfold log_softmax_at. cbn [map]. rewrite !Rsum_cons. cbn [Rsum fold_right].
  set (e := exp 1) in *.
  set (S := (exp a + (exp b + (exp c + 0)))%R).
  assert (HS : (S <= 3 * e)%R) by (unfold S; lra).
  assert (Hupper : (ln S <= ln 3 + 1)%R).
  { replace (ln 3 + 1)%R with (ln (3 * e)).
    - apply ln_le; [unfold S; lra | exact HS].
    - rewrite ln_mult by lra. unfold e. now rewrite ln_exp. }
  assert (Hlower : forall p, (0 <= p <= 1)%R -> (exp p + 2 <= S)%R ->
                             (p + ln (1 + 2 / e) <= ln S)%R).
  { intros p Hp' HpS. pose proof (Hexp p Hp') as Ep.
    assert (Hq : (0 < 1 + 2 / e)%R).
    { assert (0 < 2 / e)%R by (apply Rdiv_lt_0_compat; lra). lra. }
    replace (p + ln (1 + 2 / e))%R with (ln (exp p * (1 + 2 / e))).
    - apply ln_le; [apply Rmult_lt_0_compat; [apply exp_pos | exact Hq]|].
      assert (Hr : (exp p * / e <= 1)%R).
      { apply (Rmult_le_reg_r e); [exact He|].
        rewrite Rmult_assoc, Rinv_l by lra. lra. }
      unfold Rdiv. lra.
    - rewrite ln_mult by (apply exp_pos || exact Hq). now rewrite ln_exp. }
  destruct k as [|[|[|k]]]; [| | |lia]; cbn [nth].
  - pose proof (Hlower a Ha ltac:(unfold S; lra)). lra.
  - pose proof (Hlower b Hb ltac:(unfold S; lra)). lra.
  - pose proof (Hlower c Hc ltac:(unfold S; lra)). lra.
Qed.

(** The loss of a batch of rows of three probabilities. *)
Lemma loss_fn_of_probabilities (rows : list (list R)) (truth : list Qc) :
  Forall (fun r => length r = 3 /\ Forall (fun p => (0 <= p <= 1)%R) r) rows ->
  length truth = length rows -> rows <> [] ->
  exists v,
    loss_fn (T2 3 rows) (T1 truth) = Some (Loss v) /\
    (ln (1 + 2 / exp 1) <= v <= 1 + ln 3)%R.
Proof.
  intros Hrows Hlen Hne.
  destruct (loss_fn_unfold 3 rows truth (le_n 3) Hlen Hne)
    as (cats & _ & Hl & Hrange & ->).
  eexists. split; [reflexivity|].
  rewrite <- (Nat.min_id (length rows)) at 1 2.
  rewrite <- Hl at 2 4.
  rewrite <- (length_zip_with
                (fun row k => (- log_softmax_at row (Z.to_nat k))%R) rows cats).
  apply Rmean_bounds.
  - apply zip_with_not_nil; auto.
  - apply Forall_zip_with. intros row k Hrow Hk.
    rewrite Forall_forall in Hrows, Hrange.
    destruct (Hrows row Hrow) as [H3 Hp]. specialize (Hrange k Hk).
    apply log_softmax_of_probabilities; auto. lia.
Qed.

(** X25.  [forward] returns what a softmax has normalised, and [loss_fn]
    normalises it again: on an output of the network and as many truths,
    the loss is confined between [ln (1 + 2/e)] (about 0.55) and
    [1 + ln 3], and cannot approach zero however good the prediction. *)
Theorem loss_fn_of_forward (theta : parameters) (input_channels : nat)
        (rec mode : bool) (x : input) (out : tensor R) (truth : list Qc) :
  forward (train (init theta input_channels rec) mode) x = Some out ->
  shape out = [length truth; 3] -> truth <> [] ->
  exists v,
    loss_fn out (T1 truth) = Some (Loss v) /\
    (ln (1 + 2 / exp 1) <= v <= 1 + ln 3)%R.
Proof.
  intros Hfw Hshape Htruth.
  apply forward_output_rows in Hfw as (rows & -> & Hrows).
  cbn [shape] in Hshape. injection Hshape as Hlen.
  apply loss_fn_of_probabilities.
  - eapply Forall_impl; [|exact Hrows].
    intros r (H3 & Hsum & Hpos). split; [exact H3|].
    destruct r as [|a [|b [|c [|d r]]]]; try discriminate H3.
    inversion Hpos as [|? ? Ha Hp1]; subst. inversion Hp1 as [|? ? Hb Hp2]; subst.
    inversion Hp2 as [|? ? Hc _]; subst.
    rewrite !Rsum_cons in Hsum. cbn [Rsum fold_right] in Hsum.
    repeat constructor; lra.
  - now symmetry.
  - intros ->. cbn in Hlen. destruct truth; [congruence | discriminate].
Qed.

(** One sample through the network in evaluation mode, and its loss. *)
Lemma loss_fn_of_forward_one :
  exists v,
    loss_fn (T2 3 (map (predict_row (init theta_ones 4 false)) [[1; 2; 3; 4]%R]))
            (T1 [Q2Qc (1 # 2)]) = Some (Loss v) /\
    (ln (1 + 2 / exp 1) <= v <= 1 + ln 3)%R.
Proof.
  apply (loss_fn_of_forward theta_ones 4 false false (X2 (T2 4 [[1; 2; 3; 4]%R]))
           (T2 3 (map (predict_row (init theta_ones 4 false)) [[1; 2; 3; 4]%R]))
           [Q2Qc (1 # 2)]).
  - apply forward_eval_rows.
  - reflexivity.
  - discriminate.
Defined.
